(** * Second-level stable-set relaxation: model of [second_level_stable_set.py]

    The development embeds the three functions of the module that carry
    content: the two relaxation builders, which drive the Fusion modelling
    interface, and the dimension bound calculator.  Python floats and numpy
    scalars are idealised as real numbers; whatever numpy answers outside the
    reals ([-inf], [nan]) is kept as such. *)

From Stdlib Require Import Reals Lra Lia ZArith List String.
From stdpp Require Import base option list gmap.
Import ListNotations.

Set Default Proof Using "Type".

(** ** Python values, exceptions and outcomes *)

(** The exceptions the modelled code paths can raise.  [KeyError],
    [IndexError] and [ZeroDivisionError] are Python's own; [DimensionError],
    [FusionIndexError], [SolutionError] and [OptimizeError] are raised by the
    Fusion interface, the last one by [M.solve()] when the optimizer itself
    fails. *)
Inductive py_exn : Type :=
| IndexError
| KeyError
| ZeroDivisionError
| DimensionError
| FusionIndexError
| SolutionError
| OptimizeError.

(** A numpy float64 as far as this module can see it: a real number, or one
    of the values [np.log] answers on a non-positive argument. *)
Inductive np_float : Type :=
| Finite (r : R)
| PosInf
| NegInf
| NaN.

(** The Python values that leave the module: [None], integers, floats and
    strings. *)
Inductive py_value : Type :=
| PyNone
| PyInt (z : Z)
| PyFloat (x : np_float)
| PyStr (s : string).

(** The result of a call: a returned value or a raised exception. *)
Inductive py_result (A : Type) : Type :=
| Returned (v : A)
| Raised (e : py_exn).
Arguments Returned {A} v.
Arguments Raised {A} e.

(** ** Dimension bound calculator *)

Module Bound.

Local Open Scope R_scope.

(** What [projected_dimension] writes on standard output: the line
    "Projected dimension has to be at least: d", kept by the value [d] that is
    formatted into it. *)
Inductive line : Type :=
| DimensionLine (d : np_float).

(** Python's built-in [sum] over a list of integers. *)
Definition py_sum (l : list Z) : Z := fold_left Z.add l 0%Z.

(** [np.log] on a real argument: the logarithm on positive reals, [-inf] at
    zero and [nan] below (the two last with a runtime warning only). *)
Definition np_log (x : R) : np_float :=
  if Rlt_dec 0 x then Finite (ln x)
  else if Req_dec_T x 0 then NegInf
  else NaN.

(** Product of a numpy float with a real factor. *)
Definition np_mul (a : np_float) (y : R) : np_float :=
  match a with
  | Finite r => Finite (r * y)
  | NaN => NaN
  | PosInf =>
      if Rlt_dec 0 y then PosInf else if Req_dec_T y 0 then NaN else NegInf
  | NegInf =>
      if Rlt_dec 0 y then NegInf else if Req_dec_T y 0 then NaN else PosInf
  end.

(** [sum_ranks = 8 * rank_solution + sum(ranks_Ai)] *)
Definition sum_ranks (ranks_Ai : list Z) (rank_solution : Z) : Z :=
  (8 * rank_solution + py_sum ranks_Ai)%Z.

(** [epsilon_part = np.exp(2 * (epsilon ** 2 / 2 - epsilon ** 3 / 3))] *)
Definition epsilon_part (epsilon : R) : R :=
  exp (2 * (epsilon ^ 2 / 2 - epsilon ^ 3 / 3)).

(** [projected_dimension(epsilon, probability, ranks_Ai, rank_solution)],
    called as the module's entry point calls it: [epsilon] and [probability]
    Python floats, the ranks Python integers.  The quotient
    [sum_ranks / probability] is Python's true division of an integer by a
    float, which raises on a zero divisor.  The body ends with the [print];
    there is no [return], so the call evaluates to [None].  The arithmetic is
    that of the reals: it stands for the float arithmetic of the source as
    long as nothing overflows or underflows, see [in_range]. *)
Definition projected_dimension
    (epsilon probability : R) (ranks_Ai : list Z) (rank_solution : Z)
  : py_result py_value * list line :=
  let sum_ranks := sum_ranks ranks_Ai rank_solution in
  let epsilon_part := epsilon_part epsilon in
  if Req_dec_T probability 0 then (Raised ZeroDivisionError, [])
  else
    let d := np_mul (np_log (IZR sum_ranks / probability)) epsilon_part in
    (Returned PyNone, [DimensionLine d]).


End Bound.

(** The calculator as the specification words it: a pure map to the real
    number [d].  It is compared with [Bound.projected_dimension] below. *)
Module BoundSpec.

Local Open Scope R_scope.

Import Bound.

Definition projected_dimension
    (epsilon probability : R) (ranks_Ai : list Z) (rank_solution : Z) : R :=
  ln ((8 * IZR rank_solution + IZR (fold_right Z.add 0%Z ranks_Ai)) / probability)
  * exp (2 * (epsilon ^ 2 / 2 - epsilon ^ 3 / 3)).



End BoundSpec.

(** ** Data handed over by the graph model *)

(** A monomial: one exponent per vertex of the graph. *)
Definition monomial : Type := list nat.

(** A two-dimensional numpy array of floats: its shape and its entries. *)
Record ndarray : Type := {
  shape : nat * nat;
  entry : nat -> nat -> R
}.

(** The attributes of a [Graph] object that the builders read. *)
Record Graph : Type := {
  distinct_monomials_L2 : list monomial;
  A_L2 : gmap monomial ndarray;
  edges : list (nat * nat)
}.

(** A [RandomProjector] as the builders use it: its one operation, applied to
    each coefficient matrix. *)
Record RandomProjector : Type := {
  apply_rp_map : ndarray -> ndarray
}.

(** ** The Fusion modelling interface *)

Module Fusion.

(** Variables are referred to by the position at which the model created
    them. *)
Definition handle : Type := nat.

(** [M.variable(Domain.inPSDCone(n))], [M.variable(n, Domain.greaterThan(c))]
    and [M.variable()]. *)
Inductive var_decl : Type :=
| PSDVar (n : nat)
| VecVar (n : nat) (lower : R)
| ScalarVar.

Inductive sense : Type :=
| Maximize
| Minimize.

(** The expressions the builders form with [Expr.dot], [Expr.add],
    [Expr.sub], [Expr.mul] and [Variable.index]. *)
Inductive expr : Type :=
| EVar (v : handle)
| EIndex (v : handle) (i : nat)
| EConst (c : R)
| EDotMatrix (a : ndarray) (x : handle)
| EDotVector (v : handle) (w : list R)
| EAdd (e1 e2 : expr)
| ESub (e1 e2 : expr)
| EMul (c : R) (e : expr).

(** A model: its variables in order of creation, its objective, its
    constraints [e = c] (all of them built with [Domain.equalsTo]) in order of
    creation, and whether a log handler was set. *)
Record model : Type := {
  variables : list var_decl;
  objective : option (sense * expr);
  constraints : list (expr * R);
  log_handler : bool
}.

Definition empty : model :=
  {| variables := []; objective := None; constraints := []; log_handler := false |}.

(** What the solver leaves behind: the levels of the variables and the primal
    objective value. *)
Record answer : Type := {
  X_level : list R;
  b_level : R;
  primalObjValue : R
}.

End Fusion.

Import Fusion.

(** ** The world the builders run in *)

(** The collaborators outside the module: the solver behind [M.solve()]
    (the solution it leaves, if any, the lines it writes on its log, and
    whether the optimizer fails on the model), the wall clock behind
    [time.time()] (its successive readings), and the block of diagnostic
    prints of the unprojected builder, whose lines come from [np.linalg] and
    which numpy may refuse. *)
Class Environment : Type := {
  solver : model -> option answer;
  solver_log : model -> list string;
  solve_fails : model -> bool;
  clock : nat -> R;
  np_report :
    gmap monomial ndarray -> nat -> list R -> nat -> nat
    -> py_result unit * list string
}.

(** The state threaded through a call: the model under construction, the
    models handed to the solver so far, the number of clock readings taken
    and the lines printed. *)
Record world : Type := {
  session : model;
  solved : list model;
  ticks : nat;
  stdout : list string
}.

Definition initial_world : world :=
  {| session := Fusion.empty; solved := []; ticks := 0; stdout := [] |}.

(** A Python computation: it ends in a value or an exception, and leaves a
    world either way. *)
Definition py (A : Type) : Type := world -> py_result A * world.

#[export] Instance py_ret : MRet py := fun A (a : A) w => (Returned a, w).

#[export] Instance py_bind : MBind py := fun A B (k : A -> py B) (c : py A) w =>
  match c w with
  | (Returned a, w') => k a w'
  | (Raised e, w') => (Raised e, w')
  end.

Definition raise {A : Type} (e : py_exn) : py A := fun w => (Raised e, w).

Definition with_session (f : model -> model) (w : world) : world :=
  {| session := f (session w); solved := solved w;
     ticks := ticks w; stdout := stdout w |}.

(** ** Python and Fusion primitives *)

Section Primitives.

Context `{Environment}.

Local Open Scope R_scope.

(** [d[k]] on a dict. *)
Definition dict_getitem {V : Type} (d : gmap monomial V) (k : monomial) : py V :=
  match d !! k with
  | Some v => mret v
  | None => raise KeyError
  end.

(** [l[i]] on a list. *)
Definition list_getitem {V : Type} (l : list V) (i : nat) : py V :=
  match l !! i with
  | Some v => mret v
  | None => raise IndexError
  end.

(** [v[0] = x] on a one-dimensional array. *)
Definition array_setitem0 (v : list R) (x : R) : py (list R) :=
  match v with
  | [] => raise IndexError
  | _ :: _ => mret (<[0%nat := x]> v)
  end.

(** [time.time()] *)
Definition time_time : py R := fun w =>
  (Returned (clock (ticks w)),
   {| session := session w; solved := solved w;
      ticks := S (ticks w); stdout := stdout w |}).

(** [M.variable(...)]: the new variable is appended, its position is the
    handle.  The declarations are those of a semidefinite variable of
    positive order, a vector with a lower bound and a scalar; Fusion refuses
    a semidefinite variable of order 0, a case the model leaves aside and the
    statements on outcomes exclude (see [positive_order]). *)
Definition M_variable (d : var_decl) : py handle := fun w =>
  (Returned (length (variables (session w))),
   with_session (fun m =>
     {| variables := variables m ++ [d]; objective := objective m;
        constraints := constraints m; log_handler := log_handler m |}) w).

(** [M.objective(sense, e)] *)
Definition M_objective (s : sense) (e : expr) : py unit := fun w =>
  (Returned tt,
   with_session (fun m =>
     {| variables := variables m; objective := Some (s, e);
        constraints := constraints m; log_handler := log_handler m |}) w).

(** [M.constraint(e, Domain.equalsTo(c))]: the constraint is appended, its
    position is returned. *)
Definition M_constraint (e : expr) (c : R) : py nat := fun w =>
  (Returned (length (constraints (session w))),
   with_session (fun m =>
     {| variables := variables m; objective := objective m;
        constraints := constraints m ++ [(e, c)]; log_handler := log_handler m |}) w).

(** [M.setLogHandler(sys.stdout)] *)
Definition M_setLogHandler : py unit := fun w =>
  (Returned tt,
   with_session (fun m =>
     {| variables := variables m; objective := objective m;
        constraints := constraints m; log_handler := true |}) w).

(** [Expr.dot(a, X)] for a two-dimensional array and a matrix variable:
    Fusion takes the inner product of operands of one shape and raises its
    dimension error on any other pair. *)
Definition Expr_dot (a : ndarray) (x : handle) : py expr := fun w =>
  match variables (session w) !! x with
  | Some (PSDVar n) =>
      if decide (shape a = (n, n)) then (Returned (EDotMatrix a x), w)
      else (Raised DimensionError, w)
  | _ => (Raised DimensionError, w)
  end.

(** [v.index(i)] on a vector variable; Fusion raises on an index outside
    the variable. *)
Definition Variable_index (v : handle) (i : nat) : py expr := fun w =>
  match variables (session w) !! v with
  | Some (VecVar n _) =>
      if decide (i < n)%nat then (Returned (EIndex v i), w)
      else (Raised FusionIndexError, w)
  | _ => (Raised FusionIndexError, w)
  end.

(** [M.solve()]: the model as it stands is handed to the solver.  The
    solver writes its log on the handler when one was set, which the builders
    do with [sys.stdout]; the call raises when the optimizer fails. *)
Definition M_solve : py unit := fun w =>
  let m := session w in
  let w' :=
    {| session := m; solved := solved w ++ [m]; ticks := ticks w;
       stdout := stdout w ++ (if log_handler m then solver_log m else []) |} in
  if solve_fails m then (Raised OptimizeError, w') else (Returned tt, w').

(** [X.level()], [b.level()] and [M.primalObjValue()]: Fusion raises when the
    solver left no solution. *)
Definition solver_value {V : Type} (f : answer -> V) : py V := fun w =>
  match solver (session w) with
  | Some ans => (Returned (f ans), w)
  | None => (Raised SolutionError, w)
  end.

(** The diagnostic prints of the unprojected builder (source lines 98 to
    129). *)
Definition print_report (A : gmap monomial ndarray) (n_monomials : nat)
    (X_sol : list R) (size : nat) (n_constraints : nat) : py unit := fun w =>
  let '(r, out) := np_report A n_monomials X_sol size n_constraints in
  (r, {| session := session w; solved := solved w;
         ticks := ticks w; stdout := stdout w ++ out |}).

(** [for i, x in enumerate(l): body], counting from [i]; the values of the
    body are collected the way the source appends them to [constraints]. *)
Fixpoint for_enumerate {V W : Type} (body : nat -> V -> py W) (i : nat) (l : list V)
  : py (list W) :=
  match l with
  | [] => mret []
  | x :: l' =>
      c ← body i x;
      cs ← for_enumerate body (S i) l';
      mret (c :: cs)
  end.

End Primitives.

(** ** The builders *)

(** The record both builders return. *)
Record solution : Type := {
  sol_X : list R;
  sol_b : R;
  sol_objective : R;
  sol_computation_time : R;
  sol_size_psd_variable : nat;
  sol_no_linear_variables : py_value
}.

Section Builders.

Context `{Environment}.

Local Open Scope R_scope.

(** The value of the dict [C] at a monomial:
    [-1 if sum(monomial) == 1 else 0]. *)
Definition C_value (m : monomial) : R :=
  if decide (sum_list m = 1%nat) then -1 else 0.

(** [C = {monomial: ... for monomial in distinct_monomials}]: the entries are
    inserted in the order of the list. *)
Definition C_dict (distinct_monomials : list monomial) : gmap monomial R :=
  fold_left (fun acc m => <[m := C_value m]> acc) distinct_monomials ∅.

(** [tuple([0 for i in range(n)])] *)
Definition zero_tuple (n : nat) : monomial := replicate n 0%nat.

Definition second_level_stable_set_problem_sdp (graph : Graph) (verbose : bool)
  : py solution :=
  let distinct_monomials := distinct_monomials_L2 graph in
  let C := C_dict distinct_monomials in
  let A := A_L2 graph in
  time_start ← time_time;
  m0 ← list_getitem distinct_monomials 0;
  a0 ← dict_getitem A m0;
  let size_psd_variable := (shape a0).1 in
  X ← M_variable (PSDVar size_psd_variable);
  b ← M_variable ScalarVar;
  M_objective Maximize (EVar b);;
  let tuple_of_constant := zero_tuple (length m0) in
  constraints ←
    for_enumerate (fun (i : nat) monomial =>
        a ← dict_getitem A monomial;
        SOS_dot_X ← Expr_dot a X;
        c ← dict_getitem C monomial;
        M_constraint SOS_dot_X c)
      0 (filter (fun m => m ≠ tuple_of_constant) distinct_monomials);
  a_const ← dict_getitem A tuple_of_constant;
  dot_const ← Expr_dot a_const X;
  c_const ← dict_getitem C tuple_of_constant;
  c0 ← M_constraint (EAdd dot_const (EVar b)) c_const;
  time_end ← time_time;
  (if verbose then M_setLogHandler else mret tt);;
  start_time ← time_time;
  M_solve;;
  end_time ← time_time;
  X_sol ← solver_value X_level;
  b_sol ← solver_value b_level;
  let computation_time := end_time - start_time in
  print_report A (length distinct_monomials) X_sol size_psd_variable
    (length constraints + 1);;
  objective ← solver_value primalObjValue;
  mret {| sol_X := X_sol; sol_b := b_sol; sol_objective := objective;
          sol_computation_time := computation_time;
          sol_size_psd_variable := size_psd_variable;
          sol_no_linear_variables := PyStr "TBC" |}.

(** The weights of the slack terms: [epsilon = 0.00001],
    [dual_lower_bound = 0 - epsilon], [dual_upper_bound = 1 + epsilon]. *)
Definition epsilon : R := 0.00001.
Definition dual_lower_bound : R := 0 - epsilon.
Definition dual_upper_bound : R := 1 + epsilon.

Definition projected_second_level_stable_set_problem_sdp
    (graph : Graph) (projector : RandomProjector) (verbose slack : bool)
  : py solution :=
  let distinct_monomials := distinct_monomials_L2 graph in
  let C := C_dict distinct_monomials in
  let A := apply_rp_map projector <$> A_L2 graph in
  time_start ← time_time;
  m0 ← list_getitem distinct_monomials 0;
  a0 ← dict_getitem A m0;
  let size_psd_variable := (shape a0).1 in
  X ← M_variable (PSDVar size_psd_variable);
  slacks ←
    (if slack then
       lb_variables ← M_variable (VecVar (length distinct_monomials) 0);
       ub_variables ← M_variable (VecVar (length distinct_monomials) 0);
       mret (Some (lb_variables, ub_variables))
     else mret None);
  ones_vector ← array_setitem0 (replicate (length distinct_monomials) 1) 0;
  b ← M_variable ScalarVar;
  match slacks with
  | Some (lb_variables, ub_variables) =>
      M_objective Maximize
        (EAdd (EVar b)
           (ESub (EMul dual_lower_bound (EDotVector lb_variables ones_vector))
                 (EMul dual_upper_bound (EDotVector ub_variables ones_vector))))
  | None => M_objective Maximize (EVar b)
  end;;
  let tuple_of_constant := zero_tuple (length m0) in
  constraints ←
    for_enumerate (fun (i : nat) monomial =>
        a ← dict_getitem A monomial;
        SOS_dot_X ← Expr_dot a X;
        difference_slacks ←
          match slacks with
          | Some (lb_variables, ub_variables) =>
              l ← Variable_index lb_variables (i + 1);
              u ← Variable_index ub_variables (i + 1);
              mret (ESub l u)
          | None => mret (EConst 0)
          end;
        c ← dict_getitem C monomial;
        M_constraint (EAdd SOS_dot_X difference_slacks) c)
      0 (filter (fun m => m ≠ tuple_of_constant) distinct_monomials);
  a_const ← dict_getitem A tuple_of_constant;
  dot_const ← Expr_dot a_const X;
  c_const ← dict_getitem C tuple_of_constant;
  c0 ← M_constraint (EAdd dot_const (EVar b)) c_const;
  time_end ← time_time;
  (if verbose then M_setLogHandler else mret tt);;
  start_time ← time_time;
  M_solve;;
  end_time ← time_time;
  X_sol ← solver_value X_level;
  b_sol ← solver_value b_level;
  let computation_time := end_time - start_time in
  let linear_variables :=
    if slack then (2 * length constraints + 1)%nat else 1%nat in
  objective ← solver_value primalObjValue;
  mret {| sol_X := X_sol; sol_b := b_sol; sol_objective := objective;
          sol_computation_time := computation_time;
          sol_size_psd_variable := size_psd_variable;
          sol_no_linear_variables := PyStr "TBC" |}.

End Builders.

(** ** What a model means *)

Module Semantics.

Local Open Scope R_scope.

(** A point of the search space: a value for every variable handle, read
    according to the kind of the variable. *)
Record valuation : Type := {
  psd_value : handle -> ndarray;
  vec_value : handle -> nat -> R;
  scalar_value : handle -> R
}.

(** [f 0 + ... + f (n - 1)] *)
Fixpoint sum_upto (n : nat) (f : nat -> R) : R :=
  match n with
  | O => 0
  | S k => sum_upto k f + f k
  end.

(** The inner product of two arrays of one shape. *)
Definition frobenius (a x : ndarray) : R :=
  sum_upto (shape a).1 (fun i => sum_upto (shape a).2 (fun j => entry a i j * entry x i j)).

(** The inner product of a vector variable, read from position [i] on, with a
    constant vector. *)
Fixpoint dot_vector (v : nat -> R) (i : nat) (w : list R) : R :=
  match w with
  | [] => 0
  | c :: w' => v i * c + dot_vector v (S i) w'
  end.

Fixpoint eval (nu : valuation) (e : expr) : R :=
  match e with
  | EVar v => scalar_value nu v
  | EIndex v i => vec_value nu v i
  | EConst c => c
  | EDotMatrix a x => frobenius a (psd_value nu x)
  | EDotVector v w => dot_vector (vec_value nu v) 0 w
  | EAdd e1 e2 => eval nu e1 + eval nu e2
  | ESub e1 e2 => eval nu e1 - eval nu e2
  | EMul c e1 => c * eval nu e1
  end.

(** Membership in the cone of symmetric positive semidefinite matrices of
    order [n]. *)
Definition is_psd (n : nat) (x : ndarray) : Prop :=
  shape x = (n, n)
  /\ (forall i j, (i < n)%nat -> (j < n)%nat -> entry x i j = entry x j i)
  /\ (forall v : nat -> R,
        0 <= sum_upto n (fun i => sum_upto n (fun j => v i * entry x i j * v j))).

Definition in_domain (nu : valuation) (h : handle) (d : var_decl) : Prop :=
  match d with
  | PSDVar n => is_psd n (psd_value nu h)
  | VecVar n lower => forall i, (i < n)%nat -> lower <= vec_value nu h i
  | ScalarVar => True
  end.

Definition satisfies (nu : valuation) (c : expr * R) : Prop :=
  eval nu c.1 = c.2.

Definition feasible (m : model) (nu : valuation) : Prop :=
  (forall h d, variables m !! h = Some d -> in_domain nu h d)
  /\ Forall (satisfies nu) (constraints m).

(** The objective as a number; a minimisation is read as the maximisation of
    the opposite. *)
Definition objective_value (m : model) (nu : valuation) : R :=
  match objective m with
  | Some (Maximize, e) => eval nu e
  | Some (Minimize, e) => - eval nu e
  | None => 0
  end.

(** [v] is the optimal value of [m]: the least upper bound of the objective
    over the feasible points. *)
Definition optimal_value (m : model) (v : R) : Prop :=
  (forall nu, feasible m nu -> objective_value m nu <= v)
  /\ (forall u, (forall nu, feasible m nu -> objective_value m nu <= u) -> v <= u).

(** Two models that no point of the search space tells apart. *)
Definition equivalent (m1 m2 : model) : Prop :=
  forall nu,
    (feasible m1 nu <-> feasible m2 nu)
    /\ objective_value m1 nu = objective_value m2 nu.

(** [refers e v i]: the expression [e] reads entry [i] of the variable [v].
    An indexed variable is read at its index, the inner product with a
    constant vector at every position of that vector, a variable that stands
    alone or under the inner product with a matrix as a whole. *)
Fixpoint refers (e : expr) (v : handle) (i : nat) : Prop :=
  match e with
  | EVar u => u = v
  | EIndex u j => u = v /\ j = i
  | EConst _ => False
  | EDotMatrix _ u => u = v
  | EDotVector u w => u = v /\ (i < length w)%nat
  | EAdd e1 e2 | ESub e1 e2 => refers e1 v i \/ refers e2 v i
  | EMul _ e1 => refers e1 v i
  end.

(** Two points that give one value to entry [i] of the variable [v],
    whatever the kind of [v]. *)
Definition same_entry (nu nu' : valuation) (v : handle) (i : nat) : Prop :=
  psd_value nu v = psd_value nu' v
  /\ scalar_value nu v = scalar_value nu' v
  /\ vec_value nu v i = vec_value nu' v i.

End Semantics.

Import Semantics.

(** ** Expected models *)

#[export] Instance ndarray_inhabited : Inhabited ndarray :=
  populate {| shape := (0%nat, 0%nat); entry := fun _ _ => 0%R |}.

Definition add_constraints (cs : list (expr * R)) (m : model) : model :=
  {| variables := variables m; objective := objective m;
     constraints := constraints m ++ cs; log_handler := log_handler m |}.

(** The constraint of the unprojected builder for a non-constant monomial. *)
Definition plain_constraint (A : gmap monomial ndarray) (X : handle)
    (m : monomial) : expr * R :=
  (EDotMatrix (A !!! m) X, C_value m).

(** The constraint of the projected builder for the non-constant monomial at
    position [i], with the slack variables [lb] and [ub] or without slack. *)
Definition slack_constraint (A : gmap monomial ndarray) (X : handle)
    (slacks : option (handle * handle)) (i : nat) (m : monomial) : expr * R :=
  (EAdd (EDotMatrix (A !!! m) X)
     match slacks with
     | Some (lb, ub) => ESub (EIndex lb (i + 1)) (EIndex ub (i + 1))
     | None => EConst 0%R
     end,
   C_value m).

(** The constraint of either builder for the constant monomial. *)
Definition constant_constraint (A : gmap monomial ndarray) (X b : handle)
    (zero : monomial) : expr * R :=
  (EAdd (EDotMatrix (A !!! zero) X) (EVar b), C_value zero).

(** The objective of the projected builder with slack. *)
Definition slack_objective (lb ub b : handle) (ones_vector : list R) : expr :=
  EAdd (EVar b)
    (ESub (EMul dual_lower_bound (EDotVector lb ones_vector))
          (EMul dual_upper_bound (EDotVector ub ones_vector))).

(** The non-constant monomials, in the order of the list. *)
Definition non_constant (zero : monomial) (dm : list monomial) : list monomial :=
  filter (fun m => m ≠ zero) dm.

(** The variables of a well-formed input: every listed monomial has a matrix
    in [A], square of order [s]. *)
Definition conforming (A : gmap monomial ndarray) (dm : list monomial) (s : nat) : Prop :=
  forall m, m ∈ dm -> exists a, A !! m = Some a /\ shape a = (s, s).

(** [np.ones(n)] after [ones_vector[0] = 0]. *)
Definition ones_vector (n : nat) : list R := <[0%nat := 0%R]> (replicate n 1%R).

(** The model the unprojected builder hands to the solver: the matrix
    variable [X] has handle 0, the scalar [b] handle 1. *)
Definition unprojected_model (A : gmap monomial ndarray) (dm : list monomial)
    (zero : monomial) (s : nat) (verbose : bool) : model :=
  {| variables := [PSDVar s; ScalarVar];
     objective := Some (Maximize, EVar 1%nat);
     constraints :=
       (plain_constraint A 0%nat <$> non_constant zero dm)
       ++ [constant_constraint A 0%nat 1%nat zero];
     log_handler := verbose |}.

(** The model the projected builder hands to the solver.  With slack the
    handles are 0 for [X], 1 for [lb_variables], 2 for [ub_variables] and 3
    for [b]; without slack 0 for [X] and 1 for [b]. *)
Definition projected_model (A : gmap monomial ndarray) (dm : list monomial)
    (zero : monomial) (k : nat) (verbose slack : bool) : model :=
  let slacks := if slack then Some (1%nat, 2%nat) else None in
  let b := if slack then 3%nat else 1%nat in
  {| variables :=
       if slack
       then [PSDVar k; VecVar (length dm) 0; VecVar (length dm) 0; ScalarVar]
       else [PSDVar k; ScalarVar];
     objective :=
       Some (Maximize,
             if slack then slack_objective 1 2 3 (ones_vector (length dm))
             else EVar 1%nat);
     constraints :=
       imap (slack_constraint A 0%nat slacks) (non_constant zero dm)
       ++ [constant_constraint A 0%nat b zero];
     log_handler := verbose |}.

(** The world in which a model has just been built: two clock readings were
    taken, nothing was solved or printed. *)
Definition built (m : model) : world :=
  {| session := m; solved := []; ticks := 2; stdout := [] |}.

(** Appending constraints to the session. *)
Definition push (cs : list (expr * R)) (w : world) : world :=
  with_session (add_constraints cs) w.

(** What each builder does once its model is built. *)
Section Phases.

Context `{Environment}.

Local Open Scope R_scope.

(** What the solver writes on standard output for a model: its log if the
    handler was set, nothing otherwise. *)
Definition solver_output (m : model) : list string :=
  if log_handler m then solver_log m else [].

(** The world after [M.solve()]. *)
Definition handed (w : world) : world :=
  {| session := session w; solved := solved w ++ [session w];
     ticks := ticks w; stdout := stdout w ++ solver_output (session w) |}.

(** The solver is accurate to [tol] on a model: every solution it leaves for
    the model reports an objective within [tol] of the optimal value of the
    model. *)
Definition accurate (tol : R) (m : model) : Prop :=
  forall ans, solver m = Some ans ->
    exists v, optimal_value m v /\ Rabs (primalObjValue ans - v) <= tol.

Definition second_level_tail (A : gmap monomial ndarray)
    (n_monomials size n_constraints : nat) : py solution :=
  start_time ← time_time;
  M_solve;;
  end_time ← time_time;
  X_sol ← solver_value X_level;
  b_sol ← solver_value b_level;
  let computation_time := end_time - start_time in
  print_report A n_monomials X_sol size (n_constraints + 1);;
  objective ← solver_value primalObjValue;
  mret {| sol_X := X_sol; sol_b := b_sol; sol_objective := objective;
          sol_computation_time := computation_time;
          sol_size_psd_variable := size;
          sol_no_linear_variables := PyStr "TBC" |}.

Definition projected_tail (slack : bool) (size n_constraints : nat) : py solution :=
  start_time ← time_time;
  M_solve;;
  end_time ← time_time;
  X_sol ← solver_value X_level;
  b_sol ← solver_value b_level;
  let computation_time := end_time - start_time in
  let linear_variables :=
    if slack then (2 * n_constraints + 1)%nat else 1%nat in
  objective ← solver_value primalObjValue;
  mret {| sol_X := X_sol; sol_b := b_sol; sol_objective := objective;
          sol_computation_time := computation_time;
          sol_size_psd_variable := size;
          sol_no_linear_variables := PyStr "TBC" |}.

End Phases.

(** Two worlds in which the same relaxation is under construction: the
    variables, the objective and the clock agree, the constraints have the
    same solutions one by one, and nothing was handed to the solver. *)
Definition sim (w1 w2 : world) : Prop :=
  variables (session w1) = variables (session w2)
  /\ objective (session w1) = objective (session w2)
  /\ Forall2 (fun c1 c2 => forall nu, satisfies nu c1 <-> satisfies nu c2)
       (constraints (session w1)) (constraints (session w2))
  /\ ticks w1 = ticks w2
  /\ solved w1 = [] /\ solved w2 = [].

(** Two steps that end alike in worlds that are alike. *)
Definition agree {V : Type} (o1 o2 : py_result V * world) : Prop :=
  match o1, o2 with
  | (Returned a1, w1), (Returned a2, w2) => a1 = a2 /\ sim w1 w2
  | (Raised e1, w1), (Raised e2, w2) => e1 = e2 /\ sim w1 w2
  | _, _ => False
  end.

(** Two calls that set up the same relaxation: either both stop on the same
    exception before anything is handed to the solver, or each hands one
    model to the solver and the two models have the same variables, the same
    objective and the same feasible points. *)
Definition same_relaxation {V W : Type}
    (o1 : py_result V * world) (o2 : py_result W * world) : Prop :=
  (exists e, o1.1 = Raised e /\ o2.1 = Raised e /\ solved o1.2 = [] /\ solved o2.2 = [])
  \/ (exists m1 m2,
        solved o1.2 = [m1] /\ solved o2.2 = [m2]
        /\ variables m1 = variables m2
        /\ objective m1 = objective m2
        /\ equivalent m1 m2).

(** The objective of the projected builder with slack as the specification
    words it: [b + sum_i (-(0 - eps) * lb_i) - (1 + eps) * ub_i], the sum over
    the [n] non-constant monomials, the slack pair of the [i]-th one stored at
    position [i + 1]. *)
Module SlackSpec.

Local Open Scope R_scope.

Definition objective_value (nu : valuation) (lb ub b : handle) (n : nat) : R :=
  scalar_value nu b
  + sum_upto n (fun i =>
      (- (0 - epsilon) * vec_value nu lb (i + 1))
      - (1 + epsilon) * vec_value nu ub (i + 1)).

End SlackSpec.

(** ** Sample inputs *)

Module Sample.

Local Open Scope R_scope.

(** A solver that answers every model with the zero solution and logs one
    line, a clock that stands still and a report that prints nothing. *)
#[export] Instance env : Environment := {|
  solver := fun _ => Some {| X_level := []; b_level := 0; primalObjValue := 0 |};
  solver_log := fun _ => ["MOSEK"%string];
  solve_fails := fun _ => false;
  clock := fun _ => 0;
  np_report := fun _ _ _ _ _ => (Returned tt, [])
|}.

Definition constant_matrix (r c : nat) (v : R) : ndarray :=
  {| shape := (r, c); entry := fun _ _ => v |}.

(** One vertex, monomials [1] and [x]. *)
Definition one_vertex : Graph :=
  {| distinct_monomials_L2 := [[0%nat]; [1%nat]];
     A_L2 := <[[1%nat] := constant_matrix 2 2 1]>
               (<[[0%nat] := constant_matrix 2 2 0]> ∅);
     edges := [] |}.

(** The same graph with the matrix of [x] of another shape. *)
Definition mismatched : Graph :=
  {| distinct_monomials_L2 := [[0%nat]; [1%nat]];
     A_L2 := <[[1%nat] := constant_matrix 3 3 1]> (A_L2 one_vertex);
     edges := [] |}.

Definition identity_projector : RandomProjector :=
  {| apply_rp_map := fun a => a |}.

(** A graph whose matrices have order 1: the relaxation forces [X = 1] and
    [b = -1]. *)
Definition unit_order : Graph :=
  {| distinct_monomials_L2 := [[0%nat]; [1%nat]];
     A_L2 := <[[1%nat] := constant_matrix 1 1 (-1)]>
               (<[[0%nat] := constant_matrix 1 1 1]> ∅);
     edges := [] |}.

(** The point [X = 1], [b = -1]. *)
Definition unit_point : valuation :=
  {| psd_value := fun _ => constant_matrix 1 1 1;
     vec_value := fun _ _ => 0;
     scalar_value := fun _ => -1 |}.

(** A solver that answers every model with [X = 1], [b = -1] and the
    objective [-1], without a log. *)
Definition exact_env : Environment := {|
  solver := fun _ => Some {| X_level := [1]; b_level := -1; primalObjValue := -1 |};
  solver_log := fun _ => [];
  solve_fails := fun _ => false;
  clock := fun _ => 0;
  np_report := fun _ _ _ _ _ => (Returned tt, [])
|}.

(** A point at which every lower slack is 1 and everything else is 0. *)
Definition unit_slack : valuation :=
  {| psd_value := fun _ => constant_matrix 2 2 0;
     vec_value := fun h _ => if Nat.eqb h 1 then 1 else 0;
     scalar_value := fun _ => 0 |}.

End Sample.

(** ** Inputs and outcomes of the builders *)

(** A monomial that a builder can use: it has a matrix in [A], square of
    order [s]. *)
Definition usable (A : gmap monomial ndarray) (s : nat) (m : monomial) : Prop :=
  match A !! m with
  | Some a => shape a = (s, s)
  | None => False
  end.

#[export] Instance usable_dec (A : gmap monomial ndarray) (s : nat) (m : monomial) :
  Decision (usable A s m).
Proof. unfold usable. destruct (A !! m); apply _. Defined.

(** The inputs on which a builder gets as far as the solver: the list is not
    empty, it holds the all-zero tuple of the length of its first monomial,
    and every listed monomial has a matrix of one and the same order. *)
Definition well_formed (A : gmap monomial ndarray) (dm : list monomial) : Prop :=
  exists m0 s,
    dm !! 0%nat = Some m0
    /\ zero_tuple (length m0) ∈ dm
    /\ conforming A dm s.

(** The inputs whose matrix variable has at least one row: the matrix of the
    first listed monomial, when there is one, is not empty. *)
Definition positive_order (A : gmap monomial ndarray) (dm : list monomial) : Prop :=
  forall m0 a0, dm !! 0%nat = Some m0 -> A !! m0 = Some a0 -> (0 < (shape a0).1)%nat.

(** A call that stops on an exception with nothing handed to the solver. *)
Definition stops {V : Type} (o : py_result V * world) : Prop :=
  (exists e, o.1 = Raised e) /\ solved o.2 = [].

(** The body of the loop of the projected builder. *)
Definition slack_body (A : gmap monomial ndarray) (C : gmap monomial R) (X : handle)
    (slacks : option (handle * handle)) (i : nat) (monomial : monomial) : py nat :=
  a ← dict_getitem A monomial;
  SOS_dot_X ← Expr_dot a X;
  difference_slacks ←
    match slacks with
    | Some (lb_variables, ub_variables) =>
        l ← Variable_index lb_variables (i + 1);
        u ← Variable_index ub_variables (i + 1);
        mret (ESub l u)
    | None => mret (EConst 0)
    end;
  c ← dict_getitem C monomial;
  M_constraint (EAdd SOS_dot_X difference_slacks) c.

(** The graph whose matrices are those of [graph] seen through the
    projector. *)
Definition projected_graph (projector : RandomProjector) (graph : Graph) : Graph :=
  {| distinct_monomials_L2 := distinct_monomials_L2 graph;
     A_L2 := apply_rp_map projector <$> A_L2 graph;
     edges := edges graph |}.

Module Degenerate.

(** A graph without monomials and a graph whose only monomial has no
    matrix. *)
Definition no_monomials : Graph :=
  {| distinct_monomials_L2 := []; A_L2 := ∅; edges := [] |}.

Definition no_matrix : Graph :=
  {| distinct_monomials_L2 := [[0%nat]]; A_L2 := ∅; edges := [] |}.

End Degenerate.

(** The world a builder leaves once its model [m] was handed to the solver:
    [t] clock readings were taken and [out] was printed. *)
Definition solved_world (m : model) (t : nat) (out : list string) : world :=
  {| session := m; solved := [m]; ticks := t; stdout := out |}.

(** The point of the model with slack that a point of the model without
    slack stands for: the same matrix, the value of [b] and all slacks 0. *)
Definition without_slack (nu : valuation) : valuation :=
  {| psd_value := psd_value nu;
     vec_value := fun _ _ => 0%R;
     scalar_value := fun _ => scalar_value nu 1%nat |}.

(** ** Properties of the dimension bound calculator *)

Section BoundFacts.

Local Open Scope R_scope.

Lemma py_sum_fold_right (l : list Z) :
  Bound.py_sum l = fold_right Z.add 0%Z l.
Proof.
  unfold Bound.py_sum. apply fold_symmetric; intros; lia.
Qed.


Lemma epsilon_part_pos (epsilon : R) : 0 < Bound.epsilon_part epsilon.
Proof. unfold Bound.epsilon_part. apply exp_pos. Qed.


Lemma projected_dimension_nonzero (epsilon p : R) (ranks : list Z) (rs : Z) :
  p <> 0 ->
  Bound.projected_dimension epsilon p ranks rs
  = (Returned PyNone,
     [Bound.DimensionLine
        (Bound.np_mul (Bound.np_log (IZR (Bound.sum_ranks ranks rs) / p))
                      (Bound.epsilon_part epsilon))]).
Proof.
  intros Hp. unfold Bound.projected_dimension.
  destruct (Req_dec_T p 0); [contradiction | reflexivity].
Qed.


End BoundFacts.

(** ** Stepping through a computation *)

Section MonadFacts.

Context `{Environment}.

Lemma bind_returned {A B : Type} (c : py A) (k : A -> py B) (w w' : world) (a : A) :
  c w = (Returned a, w') -> (c ≫= k) w = k a w'.
Proof. intros Hc. unfold mbind, py_bind. rewrite Hc. reflexivity. Qed.

Lemma bind_raised {A B : Type} (c : py A) (k : A -> py B) (w w' : world) (e : py_exn) :
  c w = (Raised e, w') -> (c ≫= k) w = (Raised e, w').
Proof. intros Hc. unfold mbind, py_bind. rewrite Hc. reflexivity. Qed.

Lemma list_getitem_Some {V : Type} (l : list V) (i : nat) (v : V) (w : world) :
  l !! i = Some v -> list_getitem l i w = (Returned v, w).
Proof. intros Hi. unfold list_getitem. rewrite Hi. reflexivity. Qed.

Lemma array_setitem0_replicate (n : nat) (v x : R) (w : world) :
  0 < n ->
  array_setitem0 (replicate n v) x w = (Returned (<[0%nat := x]> (replicate n v)), w).
Proof. intros Hn. destruct n as [| n]; [lia | reflexivity]. Qed.

Lemma dict_getitem_Some {V : Type} (d : gmap monomial V) (k : monomial) (v : V) (w : world) :
  d !! k = Some v -> dict_getitem d k w = (Returned v, w).
Proof. intros Hk. unfold dict_getitem. rewrite Hk. reflexivity. Qed.

Lemma dict_getitem_None {V : Type} (d : gmap monomial V) (k : monomial) (w : world) :
  d !! k = None -> dict_getitem d k w = (Raised KeyError, w).
Proof. intros Hk. unfold dict_getitem. rewrite Hk. reflexivity. Qed.

Lemma Expr_dot_conforming (a : ndarray) (X : handle) (n : nat) (w : world) :
  variables (session w) !! X = Some (PSDVar n) -> shape a = (n, n) ->
  Expr_dot a X w = (Returned (EDotMatrix a X), w).
Proof.
  intros HX Ha. unfold Expr_dot. rewrite HX.
  destruct (decide (shape a = (n, n))); [reflexivity | contradiction].
Qed.

Lemma Expr_dot_mismatch (a : ndarray) (X : handle) (n : nat) (w : world) :
  variables (session w) !! X = Some (PSDVar n) -> shape a ≠ (n, n) ->
  Expr_dot a X w = (Raised DimensionError, w).
Proof.
  intros HX Ha. unfold Expr_dot. rewrite HX.
  destruct (decide (shape a = (n, n))); [contradiction | reflexivity].
Qed.

Lemma Variable_index_in_range (v : handle) (i n : nat) (lo : R) (w : world) :
  variables (session w) !! v = Some (VecVar n lo) -> i < n ->
  Variable_index v i w = (Returned (EIndex v i), w).
Proof.
  intros Hv Hi. unfold Variable_index. rewrite Hv.
  destruct (decide (i < n)); [reflexivity | contradiction].
Qed.

Lemma M_constraint_push (e : expr) (c : R) (w : world) :
  M_constraint e c w = (Returned (length (constraints (session w))), push [(e, c)] w).
Proof. reflexivity. Qed.

Lemma push_nil (w : world) : push [] w = w.
Proof.
  destruct w as [[vs o cs l] sv t out]. unfold push, with_session, add_constraints.
  cbn. rewrite app_nil_r. reflexivity.
Qed.

Lemma push_push (cs1 cs2 : list (expr * R)) (w : world) :
  push cs2 (push cs1 w) = push (cs1 ++ cs2) w.
Proof.
  unfold push, with_session, add_constraints. cbn. rewrite app_assoc. reflexivity.
Qed.

Lemma for_enumerate_constraints {V : Type} (body : nat -> V -> py nat)
    (mk : nat -> V -> expr * R) (ms : list V) :
  forall (i : nat) (w : world),
    (forall j m w', ms !! j = Some m ->
       variables (session w') = variables (session w) ->
       body (i + j) m w'
       = (Returned (length (constraints (session w'))), push [mk (i + j) m] w')) ->
    for_enumerate body i ms w
    = (Returned (seq (length (constraints (session w))) (length ms)),
       push (imap (fun j => mk (i + j)) ms) w).
Proof.
  induction ms as [| m ms IH]; intros i w Hbody.
  - cbn. rewrite push_nil. reflexivity.
  - cbn [for_enumerate].
    assert (Hhead : body i m w
                    = (Returned (length (constraints (session w))), push [mk i m] w)).
    { specialize (Hbody 0 m w eq_refl eq_refl). rewrite Nat.add_0_r in Hbody. exact Hbody. }
    assert (Htail : for_enumerate body (S i) ms (push [mk i m] w)
                    = (Returned (seq (length (constraints (session (push [mk i m] w))))
                                     (length ms)),
                       push (imap (fun j => mk (S i + j)) ms) (push [mk i m] w))).
    { apply IH. intros j x w' Hj Hv.
      replace (S i + j) with (i + S j) by lia. apply Hbody; [exact Hj |].
      rewrite Hv. reflexivity. }
    rewrite (bind_returned _ _ _ _ _ Hhead), (bind_returned _ _ _ _ _ Htail).
    cbn. rewrite push_push, Nat.add_0_r, length_app. cbn.
    replace (length (constraints (session w)) + 1) with (S (length (constraints (session w)))) by lia.
    do 3 f_equal. apply imap_ext. intros j x _. cbn. f_equal. lia.
Qed.

End MonadFacts.

(** One step of a computation whose value is known, followed by the
    normalisation of the world. *)
Ltac world_simpl :=
  cbn [with_session push add_constraints session solved ticks stdout
       variables objective constraints log_handler
       length app initial_world Fusion.empty fst snd].

Ltac step tac := erewrite bind_returned by tac; world_simpl.

(** ** The models the builders construct *)

Section BuilderFacts.

Context `{Environment}.

Local Open Scope R_scope.

Lemma imap_ignore {V W : Type} (f : V -> W) (l : list V) :
  imap (fun _ => f) l = f <$> l.
Proof. exact (imap_const f l). Qed.

Lemma C_dict_fold (l : list monomial) :
  forall (acc : gmap monomial R) (k : monomial),
    fold_left (fun acc m => <[m := C_value m]> acc) l acc !! k
    = if decide (k ∈ l) then Some (C_value k) else acc !! k.
Proof.
  induction l as [| m l IH]; intros acc k; cbn [fold_left].
  - destruct (decide (k ∈ [])) as [Hin | _]; [inversion Hin | reflexivity].
  - rewrite IH. destruct (decide (k ∈ l)) as [Hl | Hl].
    + rewrite decide_True by (right; exact Hl). reflexivity.
    + destruct (decide (k = m)) as [-> | Hne].
      * rewrite decide_True by left. apply lookup_insert_eq.
      * rewrite decide_False; [apply lookup_insert_ne; congruence |].
        intros Hin. apply elem_of_cons in Hin as [? | ?]; contradiction.
Qed.

Lemma C_dict_lookup (dm : list monomial) (m : monomial) :
  m ∈ dm -> C_dict dm !! m = Some (C_value m).
Proof.
  intros Hin. unfold C_dict. rewrite C_dict_fold, decide_True by exact Hin. reflexivity.
Qed.

Lemma C_dict_lookup_None (dm : list monomial) (m : monomial) :
  m ∉ dm -> C_dict dm !! m = None.
Proof.
  intros Hin. unfold C_dict. rewrite C_dict_fold, decide_False by exact Hin.
  apply lookup_empty.
Qed.

Lemma conforming_lookup (A : gmap monomial ndarray) (dm : list monomial) (s : nat)
    (m : monomial) :
  conforming A dm s -> m ∈ dm ->
  A !! m = Some (A !!! m) /\ shape (A !!! m) = (s, s).
Proof.
  intros HA Hin. destruct (HA m Hin) as (a & Ha & Hs).
  rewrite (lookup_total_correct _ _ _ Ha). split; assumption.
Qed.

Lemma second_level_build (graph : Graph) (verbose : bool) (n s : nat) (rest : list monomial) :
  distinct_monomials_L2 graph = zero_tuple n :: rest ->
  conforming (A_L2 graph) (distinct_monomials_L2 graph) s ->
  second_level_stable_set_problem_sdp graph verbose initial_world
  = second_level_tail (A_L2 graph) (length (distinct_monomials_L2 graph)) s
      (length (non_constant (zero_tuple n) (distinct_monomials_L2 graph)))
      (built (unprojected_model (A_L2 graph) (distinct_monomials_L2 graph)
                (zero_tuple n) s verbose)).
Proof.
  intros Hdm HA.
  assert (Hzero : zero_tuple n ∈ distinct_monomials_L2 graph) by (rewrite Hdm; left).
  destruct (conforming_lookup _ _ _ _ HA Hzero) as [Ha0 Hs0].
  assert (Hhead : distinct_monomials_L2 graph !! 0%nat = Some (zero_tuple n))
    by (rewrite Hdm; reflexivity).
  assert (Hlen : length (zero_tuple n) = n) by apply length_replicate.
  unfold second_level_stable_set_problem_sdp.
  step ltac:(reflexivity).
  step ltac:(apply list_getitem_Some; exact Hhead).
  step ltac:(apply dict_getitem_Some; exact Ha0).
  rewrite Hs0, Hlen. world_simpl.
  step ltac:(reflexivity).
  step ltac:(reflexivity).
  step ltac:(reflexivity).
  erewrite bind_returned.
  2:{ apply (for_enumerate_constraints _ (fun _ => plain_constraint (A_L2 graph) 0%nat)).
      intros j m w' Hj Hv. world_simpl.
      assert (Hm : m ∈ distinct_monomials_L2 graph).
      { apply list_elem_of_lookup_2 in Hj. apply list_elem_of_filter in Hj. tauto. }
      destruct (conforming_lookup _ _ _ _ HA Hm) as [Ha Hs].
      step ltac:(apply dict_getitem_Some; exact Ha).
      step ltac:(apply (Expr_dot_conforming _ _ s); [rewrite Hv; reflexivity | exact Hs]).
      step ltac:(apply dict_getitem_Some, C_dict_lookup; exact Hm).
      reflexivity. }
  world_simpl.
  step ltac:(apply dict_getitem_Some; exact Ha0).
  step ltac:(apply (Expr_dot_conforming _ _ s); [reflexivity | exact Hs0]).
  step ltac:(apply dict_getitem_Some, C_dict_lookup; exact Hzero).
  step ltac:(reflexivity).
  step ltac:(reflexivity).
  step ltac:(destruct verbose; reflexivity).
  rewrite length_seq, (imap_ignore (plain_constraint (A_L2 graph) 0%nat)).
  reflexivity.
Qed.

Lemma non_constant_head (zero : monomial) (rest : list monomial) :
  non_constant zero (zero :: rest) = non_constant zero rest.
Proof. unfold non_constant. rewrite filter_cons_False by (intros Hne; apply Hne; reflexivity). reflexivity. Qed.

Lemma non_constant_length (zero : monomial) (rest : list monomial) :
  (S (length (non_constant zero (zero :: rest))) <= length (zero :: rest))%nat.
Proof.
  rewrite non_constant_head. cbn [length]. apply le_n_S. unfold non_constant.
  apply length_filter.
Qed.

Lemma projected_build (graph : Graph) (projector : RandomProjector)
    (verbose slack : bool) (n k : nat) (rest : list monomial) :
  let A := apply_rp_map projector <$> A_L2 graph in
  let dm := distinct_monomials_L2 graph in
  dm = zero_tuple n :: rest ->
  conforming A dm k ->
  projected_second_level_stable_set_problem_sdp graph projector verbose slack initial_world
  = projected_tail slack k (length (non_constant (zero_tuple n) dm))
      (built (projected_model A dm (zero_tuple n) k verbose slack)).
Proof.
  intros A dm Hdm HA.
  assert (Hzero : zero_tuple n ∈ dm) by (rewrite Hdm; left).
  destruct (conforming_lookup _ _ _ _ HA Hzero) as [Ha0 Hs0].
  assert (Hlen : length (zero_tuple n) = n) by apply length_replicate.
  assert (Hbound : forall j m, non_constant (zero_tuple n) dm !! j = Some m ->
                               (j + 1 < length dm)%nat).
  { intros j m Hj. apply lookup_lt_Some in Hj.
    pose proof (non_constant_length (zero_tuple n) rest) as Hle.
    rewrite <- Hdm in Hle. lia. }
  assert (Hhead : dm !! 0%nat = Some (zero_tuple n)) by (rewrite Hdm; reflexivity).
  assert (Hpos : (0 < length dm)%nat) by (rewrite Hdm; cbn; lia).
  assert (Hin : forall j m, filter (fun m => m ≠ zero_tuple n) dm !! j = Some m -> m ∈ dm).
  { intros j m Hj. apply list_elem_of_lookup_2 in Hj.
    apply list_elem_of_filter in Hj. tauto. }
  unfold projected_second_level_stable_set_problem_sdp.
  fold A. fold dm.
  step ltac:(reflexivity).
  step ltac:(apply list_getitem_Some; exact Hhead).
  step ltac:(apply dict_getitem_Some; exact Ha0).
  rewrite Hs0, Hlen. world_simpl.
  step ltac:(reflexivity).
  destruct slack.
  - erewrite bind_returned.
    2:{ step ltac:(reflexivity). step ltac:(reflexivity). reflexivity. }
    world_simpl.
    step ltac:(apply array_setitem0_replicate; exact Hpos).
    step ltac:(reflexivity).
    step ltac:(reflexivity).
    erewrite bind_returned.
    2:{ apply (for_enumerate_constraints _
                 (slack_constraint A 0%nat (Some (1%nat, 2%nat)))).
        intros j m w' Hj Hv. world_simpl.
        destruct (conforming_lookup _ _ _ _ HA (Hin _ _ Hj)) as [Ha Hs].
        step ltac:(apply dict_getitem_Some; exact Ha).
        step ltac:(apply (Expr_dot_conforming _ _ k); [rewrite Hv; reflexivity | exact Hs]).
        erewrite bind_returned.
        2:{ step ltac:(apply (Variable_index_in_range _ _ (length dm) 0);
                       [rewrite Hv; reflexivity | apply (Hbound _ _ Hj)]).
            step ltac:(apply (Variable_index_in_range _ _ (length dm) 0);
                       [rewrite Hv; reflexivity | apply (Hbound _ _ Hj)]).
            reflexivity. }
        step ltac:(apply dict_getitem_Some, C_dict_lookup; exact (Hin _ _ Hj)).
        reflexivity. }
    world_simpl.
    step ltac:(apply dict_getitem_Some; exact Ha0).
    step ltac:(apply (Expr_dot_conforming _ _ k); [reflexivity | exact Hs0]).
    step ltac:(apply dict_getitem_Some, C_dict_lookup; exact Hzero).
    step ltac:(reflexivity).
    step ltac:(reflexivity).
    step ltac:(destruct verbose; reflexivity).
    rewrite ?length_seq. reflexivity.
  - step ltac:(reflexivity).
    step ltac:(apply array_setitem0_replicate; exact Hpos).
    step ltac:(reflexivity).
    step ltac:(reflexivity).
    erewrite bind_returned.
    2:{ apply (for_enumerate_constraints _ (slack_constraint A 0%nat None)).
        intros j m w' Hj Hv. world_simpl.
        destruct (conforming_lookup _ _ _ _ HA (Hin _ _ Hj)) as [Ha Hs].
        step ltac:(apply dict_getitem_Some; exact Ha).
        step ltac:(apply (Expr_dot_conforming _ _ k); [rewrite Hv; reflexivity | exact Hs]).
        step ltac:(reflexivity).
        step ltac:(apply dict_getitem_Some, C_dict_lookup; exact (Hin _ _ Hj)).
        reflexivity. }
    world_simpl.
    step ltac:(apply dict_getitem_Some; exact Ha0).
    step ltac:(apply (Expr_dot_conforming _ _ k); [reflexivity | exact Hs0]).
    step ltac:(apply dict_getitem_Some, C_dict_lookup; exact Hzero).
    step ltac:(reflexivity).
    step ltac:(reflexivity).
    step ltac:(destruct verbose; reflexivity).
    rewrite ?length_seq. reflexivity.
Qed.

End BuilderFacts.

(** ** After the model is built *)

Section TailFacts.

Context `{Environment}.

Local Open Scope R_scope.

Lemma solver_value_Some {V : Type} (f : answer -> V) (w : world) (ans : answer) :
  solver (session w) = Some ans -> solver_value f w = (Returned (f ans), w).
Proof. intros Hs. unfold solver_value. rewrite Hs. reflexivity. Qed.

Lemma solver_value_None {V : Type} (f : answer -> V) (w : world) :
  solver (session w) = None -> solver_value f w = (Raised SolutionError, w).
Proof. intros Hs. unfold solver_value. rewrite Hs. reflexivity. Qed.

Lemma M_solve_returns (w : world) :
  solve_fails (session w) = false -> M_solve w = (Returned tt, handed w).
Proof. intros Hf. unfold M_solve. rewrite Hf. reflexivity. Qed.

Lemma M_solve_raises (w : world) :
  solve_fails (session w) = true -> M_solve w = (Raised OptimizeError, handed w).
Proof. intros Hf. unfold M_solve. rewrite Hf. reflexivity. Qed.

Lemma second_level_tail_run (A : gmap monomial ndarray) (a b c : nat) (w : world) :
  let m := session w in
  let after t out :=
    {| session := m; solved := solved w ++ [m];
       ticks := t; stdout := (stdout w ++ solver_output m) ++ out |} in
  second_level_tail A a b c w
  = if solve_fails m then (Raised OptimizeError, after (S (ticks w)) [])
    else
      match solver m with
      | None => (Raised SolutionError, after (S (S (ticks w))) [])
      | Some ans =>
          match np_report A a (X_level ans) b (c + 1) with
          | (Returned _, out) =>
              (Returned {| sol_X := X_level ans; sol_b := b_level ans;
                           sol_objective := primalObjValue ans;
                           sol_computation_time := clock (S (ticks w)) - clock (ticks w);
                           sol_size_psd_variable := b;
                           sol_no_linear_variables := PyStr "TBC" |},
               after (S (S (ticks w))) out)
          | (Raised e, out) => (Raised e, after (S (S (ticks w))) out)
          end
      end.
Proof.
  intros m after. unfold after, m. unfold second_level_tail.
  step ltac:(reflexivity).
  destruct (solve_fails (session w)) eqn:Hfails.
  - erewrite bind_raised by (apply M_solve_raises; exact Hfails).
    cbn [handed session solved ticks stdout]. rewrite app_nil_r. reflexivity.
  - step ltac:(apply M_solve_returns; exact Hfails).
    cbn [handed session solved ticks stdout].
    step ltac:(reflexivity).
    destruct (solver (session w)) as [ans |] eqn:Hsolver.
    + step ltac:(apply solver_value_Some; exact Hsolver).
      step ltac:(apply solver_value_Some; exact Hsolver).
      destruct (np_report A a (X_level ans) b (c + 1)) as [[[] | e] out] eqn:Hreport.
      * step ltac:(unfold print_report; rewrite Hreport; reflexivity).
        step ltac:(apply solver_value_Some; exact Hsolver).
        reflexivity.
      * erewrite bind_raised by (unfold print_report; rewrite Hreport; reflexivity).
        reflexivity.
    + erewrite bind_raised by (apply solver_value_None; exact Hsolver).
      rewrite app_nil_r. reflexivity.
Qed.

Lemma second_level_tail_solved (A : gmap monomial ndarray) (a b c : nat) (w : world) :
  solved (second_level_tail A a b c w).2 = solved w ++ [session w].
Proof.
  rewrite second_level_tail_run.
  destruct (solve_fails (session w)); [reflexivity |].
  destruct (solver (session w)) as [ans |]; [| reflexivity].
  destruct (np_report A a (X_level ans) b (c + 1)) as [[[] | e] out]; reflexivity.
Qed.

Lemma projected_tail_run (slack : bool) (b c : nat) (w : world) :
  let m := session w in
  let after t :=
    {| session := m; solved := solved w ++ [m];
       ticks := t; stdout := stdout w ++ solver_output m |} in
  projected_tail slack b c w
  = if solve_fails m then (Raised OptimizeError, after (S (ticks w)))
    else
      (match solver m with
       | Some ans =>
           Returned {| sol_X := X_level ans; sol_b := b_level ans;
                       sol_objective := primalObjValue ans;
                       sol_computation_time := clock (S (ticks w)) - clock (ticks w);
                       sol_size_psd_variable := b;
                       sol_no_linear_variables := PyStr "TBC" |}
       | None => Raised SolutionError
       end,
       after (S (S (ticks w)))).
Proof.
  intros m after. unfold after, m. unfold projected_tail.
  step ltac:(reflexivity).
  destruct (solve_fails (session w)) eqn:Hfails.
  - erewrite bind_raised by (apply M_solve_raises; exact Hfails). reflexivity.
  - step ltac:(apply M_solve_returns; exact Hfails).
    cbn [handed session solved ticks stdout].
    step ltac:(reflexivity).
    destruct (solver (session w)) as [ans |] eqn:Hsolver.
    + step ltac:(apply solver_value_Some; exact Hsolver).
      step ltac:(apply solver_value_Some; exact Hsolver).
      step ltac:(apply solver_value_Some; exact Hsolver).
      reflexivity.
    + erewrite bind_raised by (apply solver_value_None; exact Hsolver). reflexivity.
Qed.

Lemma projected_tail_solved (slack : bool) (b c : nat) (w : world) :
  solved (projected_tail slack b c w).2 = solved w ++ [session w].
Proof.
  rewrite projected_tail_run. destruct (solve_fails (session w)); reflexivity.
Qed.

Lemma satisfies_plain (nu : valuation) (A : gmap monomial ndarray) (X : handle) (m : monomial) :
  satisfies nu (plain_constraint A X m)
  <-> frobenius (A !!! m) (psd_value nu X) = C_value m.
Proof. reflexivity. Qed.

Lemma satisfies_constant (nu : valuation) (A : gmap monomial ndarray) (X b : handle)
    (zero : monomial) :
  satisfies nu (constant_constraint A X b zero)
  <-> frobenius (A !!! zero) (psd_value nu X) + scalar_value nu b = C_value zero.
Proof. reflexivity. Qed.

Lemma satisfies_slack (nu : valuation) (A : gmap monomial ndarray) (X lb ub : handle)
    (i : nat) (m : monomial) :
  satisfies nu (slack_constraint A X (Some (lb, ub)) i m)
  <-> frobenius (A !!! m) (psd_value nu X)
      + vec_value nu lb (i + 1) - vec_value nu ub (i + 1) = C_value m.
Proof. unfold satisfies. cbn. split; intros Heq; lra. Qed.

Lemma satisfies_no_slack (nu : valuation) (A : gmap monomial ndarray) (X : handle)
    (i : nat) (m : monomial) :
  satisfies nu (slack_constraint A X None i m)
  <-> frobenius (A !!! m) (psd_value nu X) = C_value m.
Proof. unfold satisfies. cbn. split; intros Heq; lra. Qed.

Lemma non_constant_elem (zero m : monomial) (dm : list monomial) :
  m ∈ non_constant zero dm <-> m ≠ zero /\ m ∈ dm.
Proof. exact (list_elem_of_filter (fun m => m ≠ zero) dm m). Qed.

End TailFacts.


(** ** Reading models as optimisation problems *)

Section SemanticsFacts.

Local Open Scope R_scope.

Lemma sum_upto_ext (n : nat) (f g : nat -> R) :
  (forall i, (i < n)%nat -> f i = g i) -> sum_upto n f = sum_upto n g.
Proof.
  induction n as [| n IH]; intros Hfg; cbn; [reflexivity |].
  rewrite IH by (intros i Hi; apply Hfg; lia). rewrite Hfg by lia. reflexivity.
Qed.

Lemma sum_upto_shift (n : nat) (f : nat -> R) :
  sum_upto (S n) f = f 0%nat + sum_upto n (fun j => f (S j)).
Proof.
  induction n as [| n IH]; [cbn; lra |].
  change (sum_upto (S (S n)) f) with (sum_upto (S n) f + f (S n)).
  rewrite IH. cbn. lra.
Qed.

Lemma sum_upto_linear (n : nat) (a b : R) (f g : nat -> R) :
  a * sum_upto n f - b * sum_upto n g = sum_upto n (fun i => a * f i - b * g i).
Proof. induction n as [| n IH]; cbn; [lra |]. rewrite <- IH. lra. Qed.

Lemma dot_vector_replicate (v : nat -> R) (n : nat) :
  forall i, dot_vector v i (replicate n 1) = sum_upto n (fun j => v (i + j)%nat).
Proof.
  induction n as [| n IH]; intros i; [reflexivity |].
  cbn [replicate dot_vector]. rewrite IH, sum_upto_shift.
  rewrite Nat.add_0_r. rewrite Rmult_1_r. f_equal.
  apply sum_upto_ext. intros j _. f_equal. lia.
Qed.

Lemma dot_vector_ones (v : nat -> R) (n : nat) :
  dot_vector v 0 (ones_vector (S n)) = sum_upto n (fun i => v (i + 1)%nat).
Proof.
  unfold ones_vector. cbn [replicate]. cbn [insert list_insert dot_vector].
  rewrite dot_vector_replicate, Rmult_0_r, Rplus_0_l.
  apply sum_upto_ext. intros j _. f_equal. lia.
Qed.

Lemma epsilon_value : epsilon = 1 / 100000.
Proof. unfold epsilon. lra. Qed.

Lemma slack_objective_value (nu : valuation) (lb ub b : handle) (n : nat) :
  eval nu (slack_objective lb ub b (ones_vector (S n)))
  = scalar_value nu b
    + sum_upto n (fun i =>
        (0 - epsilon) * vec_value nu lb (i + 1) - (1 + epsilon) * vec_value nu ub (i + 1)).
Proof.
  unfold slack_objective. cbn [eval]. rewrite !dot_vector_ones.
  unfold dual_lower_bound, dual_upper_bound. rewrite sum_upto_linear. reflexivity.
Qed.

Lemma non_constant_all (zero : monomial) (rest : list monomial) :
  zero ∉ rest -> non_constant zero (zero :: rest) = rest.
Proof.
  intros Hnot. rewrite non_constant_head. unfold non_constant.
  induction rest as [| m rest IH]; [reflexivity |].
  apply not_elem_of_cons in Hnot as [Hne Hnot].
  rewrite filter_cons_True by congruence. rewrite IH by exact Hnot. reflexivity.
Qed.

Lemma dot_vector_same (v v' : nat -> R) (i : nat) (w : list R) :
  (forall j, (j < length w)%nat -> v (i + j)%nat = v' (i + j)%nat) ->
  dot_vector v i w = dot_vector v' i w.
Proof.
  revert i. induction w as [| c w IH]; intros i Hv; cbn [dot_vector]; [reflexivity |].
  rewrite (IH (S i)).
  - specialize (Hv 0%nat ltac:(cbn; lia)). rewrite Nat.add_0_r in Hv. rewrite Hv. reflexivity.
  - intros j Hj. specialize (Hv (S j) ltac:(cbn; lia)).
    rewrite Nat.add_succ_r in Hv. exact Hv.
Qed.

(** An expression has one value at two points that agree on every entry it
    reads. *)
Lemma eval_refers (nu nu' : valuation) (e : expr) :
  (forall v i, refers e v i -> same_entry nu nu' v i) ->
  eval nu e = eval nu' e.
Proof.
  induction e as [u | u j | c | a u | u w | e1 IH1 e2 IH2 | e1 IH1 e2 IH2 | c e1 IH1];
    intros Hsame; cbn [eval].
  - apply (Hsame u 0%nat). reflexivity.
  - apply (Hsame u j). split; reflexivity.
  - reflexivity.
  - destruct (Hsame u 0%nat eq_refl) as [-> _]. reflexivity.
  - apply dot_vector_same. intros j Hj. apply (Hsame u j). split; [reflexivity | exact Hj].
  - rewrite IH1, IH2; [reflexivity | |]; intros v i Hr; apply Hsame; cbn; tauto.
  - rewrite IH1, IH2; [reflexivity | |]; intros v i Hr; apply Hsame; cbn; tauto.
  - rewrite IH1; [reflexivity |]. intros v i Hr. apply Hsame. exact Hr.
Qed.

End SemanticsFacts.

(** ** The sample inputs *)

Section SampleFacts.

Local Open Scope R_scope.

Lemma one_vertex_lookup0 :
  A_L2 Sample.one_vertex !! [0%nat] = Some (Sample.constant_matrix 2 2 0).
Proof. unfold Sample.one_vertex; cbn. rewrite lookup_insert_ne by discriminate. apply lookup_insert_eq. Qed.

Lemma one_vertex_lookup1 :
  A_L2 Sample.one_vertex !! [1%nat] = Some (Sample.constant_matrix 2 2 1).
Proof. unfold Sample.one_vertex; cbn. apply lookup_insert_eq. Qed.

Lemma one_vertex_conforming :
  conforming (A_L2 Sample.one_vertex) (distinct_monomials_L2 Sample.one_vertex) 2.
Proof.
  intros m Hm. cbn in Hm. apply elem_of_cons in Hm as [-> | Hm].
  - eexists. split; [apply one_vertex_lookup0 | reflexivity].
  - apply list_elem_of_singleton in Hm as ->.
    eexists. split; [apply one_vertex_lookup1 | reflexivity].
Qed.

Lemma identity_conforming (graph : Graph) (s : nat) :
  conforming (A_L2 graph) (distinct_monomials_L2 graph) s ->
  conforming (apply_rp_map Sample.identity_projector <$> A_L2 graph)
    (distinct_monomials_L2 graph) s.
Proof.
  intros HA m Hm. destruct (HA m Hm) as (a & Ha & Hs).
  exists a. split; [| exact Hs]. rewrite lookup_fmap, Ha. reflexivity.
Qed.

Lemma unit_order_lookup0 :
  A_L2 Sample.unit_order !! [0%nat] = Some (Sample.constant_matrix 1 1 1).
Proof.
  unfold Sample.unit_order; cbn. rewrite lookup_insert_ne by discriminate.
  apply lookup_insert_eq.
Qed.

Lemma unit_order_lookup1 :
  A_L2 Sample.unit_order !! [1%nat] = Some (Sample.constant_matrix 1 1 (-1)).
Proof. unfold Sample.unit_order; cbn. apply lookup_insert_eq. Qed.

Lemma unit_order_conforming :
  conforming (A_L2 Sample.unit_order) (distinct_monomials_L2 Sample.unit_order) 1.
Proof.
  intros m Hm. cbn in Hm. apply elem_of_cons in Hm as [-> | Hm].
  - eexists. split; [apply unit_order_lookup0 | reflexivity].
  - apply list_elem_of_singleton in Hm as ->.
    eexists. split; [apply unit_order_lookup1 | reflexivity].
Qed.

Lemma unit_order_constraints (verbose : bool) :
  constraints (unprojected_model (A_L2 Sample.unit_order)
                 (distinct_monomials_L2 Sample.unit_order) (zero_tuple 1) 1 verbose)
  = [(EDotMatrix (Sample.constant_matrix 1 1 (-1)) 0%nat, -1);
     (EAdd (EDotMatrix (Sample.constant_matrix 1 1 1) 0%nat) (EVar 1%nat), 0)].
Proof.
  cbn [constraints unprojected_model].
  change (distinct_monomials_L2 Sample.unit_order) with (zero_tuple 1 :: [[1%nat]]).
  rewrite non_constant_all
    by (intros Hin; apply list_elem_of_singleton in Hin; discriminate).
  unfold plain_constraint, constant_constraint. cbn [fmap list_fmap app].
  rewrite (lookup_total_correct _ _ _ unit_order_lookup1).
  rewrite (lookup_total_correct _ _ _ unit_order_lookup0).
  reflexivity.
Qed.

Lemma unit_order_optimal (verbose : bool) :
  optimal_value
    (unprojected_model (A_L2 Sample.unit_order)
       (distinct_monomials_L2 Sample.unit_order) (zero_tuple 1) 1 verbose)
    (-1).
Proof.
  set (m := unprojected_model _ _ _ _ _).
  assert (Hvalue : forall nu, feasible m nu -> objective_value m nu = -1).
  { intros nu [_ Hcs]. unfold m in Hcs. rewrite unit_order_constraints in Hcs.
    apply Forall_cons in Hcs as [Hx Hcs]. apply Forall_cons in Hcs as [Hb _].
    unfold satisfies in Hx, Hb. cbn in Hx, Hb.
    unfold objective_value. cbn. lra. }
  assert (Hpoint : feasible m Sample.unit_point).
  { split.
    - intros h d Hh. cbn in Hh.
      destruct h as [| [| h]]; cbn in Hh; try discriminate; injection Hh as <-; cbn.
      + split; [reflexivity |]. split; [reflexivity |].
        intros v. cbn. nra.
      + exact I.
    - unfold m. rewrite unit_order_constraints.
      repeat constructor; unfold satisfies; cbn; lra. }
  split.
  - intros nu Hf. rewrite (Hvalue nu Hf). lra.
  - intros u Hu. rewrite <- (Hvalue _ Hpoint). apply Hu, Hpoint.
Qed.

End SampleFacts.

(** ** What is handed to the solver *)

Section SolvedFacts.

Context `{Environment}.

Local Open Scope R_scope.

Lemma projected_solved (graph : Graph) (projector : RandomProjector)
    (verbose slack : bool) (n k : nat) (rest : list monomial) :
  let A := apply_rp_map projector <$> A_L2 graph in
  let dm := distinct_monomials_L2 graph in
  dm = zero_tuple n :: rest ->
  conforming A dm k ->
  solved (projected_second_level_stable_set_problem_sdp graph projector verbose slack
            initial_world).2
  = [projected_model A dm (zero_tuple n) k verbose slack].
Proof.
  intros A dm Hdm HA. unfold A, dm.
  rewrite (projected_build graph projector verbose slack n k rest Hdm HA).
  rewrite projected_tail_solved. reflexivity.
Qed.

Lemma slack_constraints_satisfied (nu : valuation) (A : gmap monomial ndarray)
    (X lb ub : handle) (ms : list monomial) :
  Forall (satisfies nu) (imap (slack_constraint A X (Some (lb, ub))) ms)
  <-> (forall i mono, ms !! i = Some mono ->
         frobenius (A !!! mono) (psd_value nu X)
         + vec_value nu lb (i + 1) - vec_value nu ub (i + 1) = C_value mono).
Proof.
  rewrite Forall_lookup. split.
  - intros Hall i mono Hi. apply satisfies_slack. apply (Hall i).
    rewrite list_lookup_imap, Hi. reflexivity.
  - intros Hall i c Hi. rewrite list_lookup_imap in Hi.
    destruct (ms !! i) as [mono |] eqn:Hm; [| discriminate].
    injection Hi as <-. apply satisfies_slack, Hall. exact Hm.
Qed.

End SolvedFacts.

(** ** The bound as a function of the probability *)

Section BoundOrder.

Local Open Scope R_scope.



End BoundOrder.


(** ** Matrices of the wrong shape *)

Section MismatchFacts.

Context `{Environment}.

Local Open Scope R_scope.

Lemma for_enumerate_mismatch (A : gmap monomial ndarray) (C : gmap monomial R)
    (X : handle) (s : nat) (ms : list monomial) :
  forall (i : nat) (w : world),
    variables (session w) !! X = Some (PSDVar s) ->
    (forall m, m ∈ ms -> is_Some (A !! m) /\ is_Some (C !! m)) ->
    Exists (fun m => shape (A !!! m) ≠ (s, s)) ms ->
    exists w',
      for_enumerate (fun (i : nat) monomial =>
          a ← dict_getitem A monomial;
          SOS_dot_X ← Expr_dot a X;
          c ← dict_getitem C monomial;
          M_constraint SOS_dot_X c) i ms w
      = (Raised DimensionError, w')
      /\ solved w' = solved w.
Proof.
  induction ms as [| m ms IH]; intros i w HX Hkeys Hbad; [inversion Hbad |].
  destruct (Hkeys m) as [[a Ha] [c Hc]]; [left |].
  assert (Htotal : A !!! m = a) by (apply lookup_total_correct; exact Ha).
  cbn [for_enumerate].
  destruct (decide (shape a = (s, s))) as [Hgood | Hwrong].
  - apply Exists_cons in Hbad as [Hhead | Htail]; [rewrite Htotal in Hhead; contradiction |].
    erewrite bind_returned.
    2:{ step ltac:(apply dict_getitem_Some; exact Ha).
        step ltac:(apply (Expr_dot_conforming _ _ s); assumption).
        step ltac:(apply dict_getitem_Some; exact Hc).
        apply M_constraint_push. }
    destruct (IH (S i) (push [(EDotMatrix a X, c)] w)) as (w' & Hrun & Hsolved);
      [exact HX | intros m' Hm'; apply Hkeys; right; exact Hm' | exact Htail |].
    erewrite bind_raised by exact Hrun.
    exists w'. split; [reflexivity | exact Hsolved].
  - erewrite bind_raised.
    2:{ step ltac:(apply dict_getitem_Some; exact Ha).
        erewrite bind_raised by (apply (Expr_dot_mismatch _ _ s); assumption).
        reflexivity. }
    exists w. split; reflexivity.
Qed.

End MismatchFacts.


(** ** Runs on the sample inputs *)

Section SampleRuns.

Local Open Scope R_scope.

Lemma mismatched_keys :
  forall m, m ∈ distinct_monomials_L2 Sample.mismatched ->
            is_Some (A_L2 Sample.mismatched !! m).
Proof.
  intros m Hm. cbn in Hm. cbn [A_L2 Sample.mismatched].
  apply elem_of_cons in Hm as [-> | Hm].
  - exists (Sample.constant_matrix 2 2 0).
    rewrite lookup_insert_ne by discriminate. apply one_vertex_lookup0.
  - apply list_elem_of_singleton in Hm as ->.
    exists (Sample.constant_matrix 3 3 1). apply lookup_insert_eq.
Qed.

Lemma mismatched_total0 :
  A_L2 Sample.mismatched !!! [0%nat] = Sample.constant_matrix 2 2 0.
Proof.
  apply lookup_total_correct. cbn [A_L2 Sample.mismatched].
  rewrite lookup_insert_ne by discriminate. apply one_vertex_lookup0.
Qed.

Lemma mismatched_total1 :
  A_L2 Sample.mismatched !!! [1%nat] = Sample.constant_matrix 3 3 1.
Proof.
  apply lookup_total_correct. cbn [A_L2 Sample.mismatched]. apply lookup_insert_eq.
Qed.

End SampleRuns.

(** ** Models without slack *)

Section EquivalenceFacts.

Local Open Scope R_scope.

Lemma fmap_identity (f : ndarray -> ndarray) (A : gmap monomial ndarray) :
  (forall a, f a = a) -> f <$> A = A.
Proof.
  intros Hf. apply map_eq. intros m. rewrite lookup_fmap.
  destruct (A !! m) as [a |]; cbn; [rewrite Hf |]; reflexivity.
Qed.

Lemma no_slack_constraints_satisfied (nu : valuation) (A : gmap monomial ndarray)
    (X : handle) (ms : list monomial) :
  Forall (satisfies nu) (imap (slack_constraint A X None) ms)
  <-> Forall (satisfies nu) (plain_constraint A X <$> ms).
Proof.
  rewrite !Forall_lookup. split; intros Hall i c Hi.
  - rewrite list_lookup_fmap in Hi.
    destruct (ms !! i) as [mono |] eqn:Hm; [| discriminate].
    injection Hi as <-. apply satisfies_plain.
    apply (satisfies_no_slack nu A X i mono).
    apply (Hall i (slack_constraint A X None i mono)).
    rewrite list_lookup_imap, Hm. reflexivity.
  - rewrite list_lookup_imap in Hi.
    destruct (ms !! i) as [mono |] eqn:Hm; [| discriminate].
    injection Hi as <-. apply satisfies_no_slack.
    apply (satisfies_plain nu A X mono). apply (Hall i (plain_constraint A X mono)).
    rewrite list_lookup_fmap, Hm. reflexivity.
Qed.

Lemma projected_model_equivalent (A : gmap monomial ndarray) (dm : list monomial)
    (zero : monomial) (s : nat) (verbose : bool) :
  equivalent (unprojected_model A dm zero s verbose)
             (projected_model A dm zero s verbose false).
Proof.
  intros nu. split; [| reflexivity].
  unfold feasible. cbn [variables constraints unprojected_model projected_model].
  rewrite !Forall_app, no_slack_constraints_satisfied. reflexivity.
Qed.

Lemma equivalent_optimal (m1 m2 : model) :
  equivalent m1 m2 -> forall v, optimal_value m1 v <-> optimal_value m2 v.
Proof.
  intros Heq v. unfold optimal_value. split; intros [Hub Hleast]; split.
  - intros nu Hf. destruct (Heq nu) as [Hfe <-]. apply Hub, Hfe, Hf.
  - intros u Hu. apply Hleast. intros nu Hf. destruct (Heq nu) as [Hfe Ho].
    rewrite Ho. apply Hu, Hfe, Hf.
  - intros nu Hf. destruct (Heq nu) as [Hfe ->]. apply Hub, Hfe, Hf.
  - intros u Hu. apply Hleast. intros nu Hf. destruct (Heq nu) as [Hfe Ho].
    rewrite <- Ho. apply Hu, Hfe, Hf.
Qed.

Lemma optimal_value_unique (m : model) (v1 v2 : R) :
  optimal_value m v1 -> optimal_value m v2 -> v1 = v2.
Proof.
  intros [Hub1 Hl1] [Hub2 Hl2]. apply Rle_antisym; [apply Hl1 | apply Hl2]; assumption.
Qed.

End EquivalenceFacts.


(** ** The two builders side by side *)

Section Lockstep.

Context `{Environment}.

Local Open Scope R_scope.

Lemma sim_initial : sim initial_world initial_world.
Proof. repeat split; constructor. Qed.

Lemma agree_bind {V W : Type} (c1 c2 : py V) (k1 k2 : V -> py W) (w1 w2 : world) :
  agree (c1 w1) (c2 w2) ->
  (forall a w1' w2', sim w1' w2' -> agree (k1 a w1') (k2 a w2')) ->
  agree ((c1 ≫= k1) w1) ((c2 ≫= k2) w2).
Proof.
  intros Hc Hk. unfold mbind, py_bind.
  destruct (c1 w1) as [[a1 | e1] w1'], (c2 w2) as [[a2 | e2] w2']; cbn in Hc; try contradiction.
  - destruct Hc as [<- Hsim]. apply Hk, Hsim.
  - exact Hc.
Qed.

Lemma same_relaxation_bind {V W1 W2 : Type} (c1 c2 : py V)
    (k1 : V -> py W1) (k2 : V -> py W2) (w1 w2 : world) :
  agree (c1 w1) (c2 w2) ->
  (forall a w1' w2', sim w1' w2' -> same_relaxation (k1 a w1') (k2 a w2')) ->
  same_relaxation ((c1 ≫= k1) w1) ((c2 ≫= k2) w2).
Proof.
  intros Hc Hk. unfold mbind, py_bind.
  destruct (c1 w1) as [[a1 | e1] w1'], (c2 w2) as [[a2 | e2] w2']; cbn in Hc; try contradiction.
  - destruct Hc as [<- Hsim]. apply Hk, Hsim.
  - destruct Hc as [<- (_ & _ & _ & _ & Hs1 & Hs2)]. left. exists e1.
    repeat split; assumption.
Qed.

Lemma agree_right {V U : Type} (o1 : py_result V * world) (c2 : py U)
    (k2 : U -> py V) (w2 : world) (u : U) :
  c2 w2 = (Returned u, w2) -> agree o1 (k2 u w2) -> agree o1 ((c2 ≫= k2) w2).
Proof. intros Hc Hk. rewrite (bind_returned _ _ _ _ _ Hc). exact Hk. Qed.

Lemma same_relaxation_right {V W U : Type} (o1 : py_result V * world) (c2 : py U)
    (k2 : U -> py W) (w2 : world) (u : U) :
  c2 w2 = (Returned u, w2) -> same_relaxation o1 (k2 u w2) ->
  same_relaxation o1 ((c2 ≫= k2) w2).
Proof. intros Hc Hk. rewrite (bind_returned _ _ _ _ _ Hc). exact Hk. Qed.

Lemma agree_time_time (w1 w2 : world) :
  sim w1 w2 -> agree (time_time w1) (time_time w2).
Proof.
  intros (Hv & Ho & Hc & Ht & Hs1 & Hs2). cbn. rewrite Ht.
  repeat split; cbn; congruence.
Qed.

Lemma agree_dict_getitem {V : Type} (d : gmap monomial V) (k : monomial) (w1 w2 : world) :
  sim w1 w2 -> agree (dict_getitem d k w1) (dict_getitem d k w2).
Proof. intros Hsim. unfold dict_getitem. destruct (d !! k); cbn; split; trivial. Qed.

Lemma agree_M_variable (d : var_decl) (w1 w2 : world) :
  sim w1 w2 -> agree (M_variable d w1) (M_variable d w2).
Proof.
  intros (Hv & Ho & Hc & Ht & Hs1 & Hs2). cbn. rewrite Hv.
  repeat split; cbn; congruence.
Qed.

Lemma agree_M_objective (s : sense) (e : expr) (w1 w2 : world) :
  sim w1 w2 -> agree (M_objective s e w1) (M_objective s e w2).
Proof.
  intros (Hv & Ho & Hc & Ht & Hs1 & Hs2). cbn. repeat split; cbn; congruence.
Qed.

Lemma agree_Expr_dot (a : ndarray) (X : handle) (w1 w2 : world) :
  sim w1 w2 -> agree (Expr_dot a X w1) (Expr_dot a X w2).
Proof.
  intros Hsim. pose proof Hsim as (Hv & _). unfold Expr_dot. rewrite Hv.
  destruct (variables (session w2) !! X) as [[n | n lo |] |]; cbn; try (split; trivial).
  destruct (decide (shape a = (n, n))); cbn; split; trivial.
Qed.

Lemma agree_M_constraint (e1 e2 : expr) (c : R) (w1 w2 : world) :
  (forall nu, eval nu e1 = eval nu e2) ->
  sim w1 w2 -> agree (M_constraint e1 c w1) (M_constraint e2 c w2).
Proof.
  intros He (Hv & Ho & Hc & Ht & Hs1 & Hs2). cbn.
  split; [apply (Forall2_length _ _ _ Hc) |].
  repeat split; cbn; try congruence.
  apply Forall2_app; [exact Hc |]. constructor; [| constructor].
  intros nu. unfold satisfies. cbn. rewrite He. reflexivity.
Qed.

Lemma agree_setLogHandler (verbose : bool) (w1 w2 : world) :
  sim w1 w2 ->
  agree ((if verbose then M_setLogHandler else mret tt) w1)
        ((if verbose then M_setLogHandler else mret tt) w2).
Proof.
  intros (Hv & Ho & Hc & Ht & Hs1 & Hs2).
  destruct verbose; cbn; repeat split; cbn; congruence.
Qed.

Lemma agree_for_enumerate {V W : Type} (body1 body2 : nat -> V -> py W) (l : list V) :
  (forall i x w1 w2, sim w1 w2 -> agree (body1 i x w1) (body2 i x w2)) ->
  forall i w1 w2, sim w1 w2 ->
    agree (for_enumerate body1 i l w1) (for_enumerate body2 i l w2).
Proof.
  intros Hbody. induction l as [| x l IH]; intros i w1 w2 Hsim; cbn [for_enumerate].
  - cbn. split; trivial.
  - apply agree_bind; [apply Hbody, Hsim |]. intros c w1' w2' Hsim'.
    apply agree_bind; [apply IH, Hsim' |]. intros cs w1'' w2'' Hsim''.
    cbn. split; trivial.
Qed.

Lemma sim_equivalent (w1 w2 : world) :
  sim w1 w2 -> equivalent (session w1) (session w2).
Proof.
  intros (Hv & Ho & Hc & _) nu. split.
  - unfold feasible. rewrite Hv.
    assert (Hcs : Forall (satisfies nu) (constraints (session w1))
                  <-> Forall (satisfies nu) (constraints (session w2))).
    { induction Hc as [| c1 c2 l1 l2 Hc12 _ IH]; [reflexivity |].
      rewrite !Forall_cons, IH, (Hc12 nu). reflexivity. }
    rewrite Hcs. reflexivity.
  - unfold objective_value. rewrite Ho. reflexivity.
Qed.

Lemma tails_same_relaxation (A : gmap monomial ndarray) (a b c b' c' : nat)
    (slack : bool) (w1 w2 : world) :
  sim w1 w2 ->
  same_relaxation (second_level_tail A a b c w1) (projected_tail slack b' c' w2).
Proof.
  intros Hsim. right. exists (session w1), (session w2).
  rewrite second_level_tail_solved, projected_tail_solved.
  pose proof (sim_equivalent _ _ Hsim) as Heq.
  destruct Hsim as (Hv & Ho & _ & _ & Hs1 & Hs2). rewrite Hs1, Hs2.
  split; [reflexivity |]. split; [reflexivity |].
  split; [exact Hv |]. split; [exact Ho | exact Heq].
Qed.

Lemma identity_lockstep (graph : Graph) (projector : RandomProjector) (verbose : bool) :
  (forall a, apply_rp_map projector a = a) ->
  same_relaxation
    (second_level_stable_set_problem_sdp graph verbose initial_world)
    (projected_second_level_stable_set_problem_sdp graph projector verbose false
       initial_world).
Proof.
  intros Hid.
  unfold second_level_stable_set_problem_sdp, projected_second_level_stable_set_problem_sdp.
  rewrite (fmap_identity _ (A_L2 graph) Hid).
  apply same_relaxation_bind; [apply agree_time_time, sim_initial |].
  intros time_start w1 w2 Hsim.
  destruct (distinct_monomials_L2 graph) as [| m0 rest] eqn:Hdm.
  { left. exists IndexError. destruct Hsim as (_ & _ & _ & _ & Hs1 & Hs2).
    repeat split; assumption. }
  erewrite (bind_returned (list_getitem (m0 :: rest) 0)) by reflexivity.
  erewrite (bind_returned (list_getitem (m0 :: rest) 0) _ w2) by reflexivity.
  apply same_relaxation_bind; [apply agree_dict_getitem, Hsim |].
  clear w1 w2 Hsim. intros a0 w1 w2 Hsim.
  apply same_relaxation_bind; [apply agree_M_variable, Hsim |].
  clear w1 w2 Hsim. intros X w1 w2 Hsim.
  eapply same_relaxation_right; [reflexivity |].
  eapply same_relaxation_right; [reflexivity |].
  apply same_relaxation_bind; [apply agree_M_variable, Hsim |].
  clear w1 w2 Hsim. intros b w1 w2 Hsim.
  apply same_relaxation_bind; [apply agree_M_objective, Hsim |].
  clear w1 w2 Hsim. intros [] w1 w2 Hsim.
  apply same_relaxation_bind.
  { apply agree_for_enumerate; [| exact Hsim].
    clear w1 w2 Hsim. intros i m w1 w2 Hsim.
    apply agree_bind; [apply agree_dict_getitem, Hsim |].
    clear w1 w2 Hsim. intros a w1 w2 Hsim.
    apply agree_bind; [apply agree_Expr_dot, Hsim |].
    clear w1 w2 Hsim. intros d w1 w2 Hsim.
    eapply agree_right; [reflexivity |].
    apply agree_bind; [apply agree_dict_getitem, Hsim |].
    clear w1 w2 Hsim. intros c w1 w2 Hsim.
    apply agree_M_constraint; [| exact Hsim]. intros nu. cbn. lra. }
  clear w1 w2 Hsim. intros cs w1 w2 Hsim.
  apply same_relaxation_bind; [apply agree_dict_getitem, Hsim |].
  clear w1 w2 Hsim. intros a_const w1 w2 Hsim.
  apply same_relaxation_bind; [apply agree_Expr_dot, Hsim |].
  clear w1 w2 Hsim. intros dot_const w1 w2 Hsim.
  apply same_relaxation_bind; [apply agree_dict_getitem, Hsim |].
  clear w1 w2 Hsim. intros c_const w1 w2 Hsim.
  apply same_relaxation_bind; [apply agree_M_constraint; [reflexivity | exact Hsim] |].
  clear w1 w2 Hsim. intros c0 w1 w2 Hsim.
  apply same_relaxation_bind; [apply agree_time_time, Hsim |].
  clear w1 w2 Hsim. intros time_end w1 w2 Hsim.
  apply same_relaxation_bind; [apply agree_setLogHandler, Hsim |].
  clear w1 w2 Hsim. intros [] w1 w2 Hsim.
  apply (tails_same_relaxation (A_L2 graph) (length (m0 :: rest)) (shape a0).1
           (length cs) (shape a0).1 (length cs) false w1 w2 Hsim).
Qed.

End Lockstep.

(** On a well-formed graph both builders reach the solver. *)
Section WellFormed.

Context `{Environment}.

Local Open Scope R_scope.

Lemma identity_projection_well_formed (graph : Graph) (projector : RandomProjector)
    (verbose : bool) (n s : nat) (rest : list monomial) :
  let dm := distinct_monomials_L2 graph in
  let A := A_L2 graph in
  let zero := zero_tuple n in
  (forall a, apply_rp_map projector a = a) ->
  dm = zero :: rest ->
  conforming A dm s ->
  exists m1 m2,
    solved (second_level_stable_set_problem_sdp graph verbose initial_world).2 = [m1]
    /\ solved (projected_second_level_stable_set_problem_sdp graph projector verbose false
                 initial_world).2 = [m2]
    /\ variables m1 = variables m2
    /\ objective m1 = objective m2
    /\ (forall nu, feasible m1 nu <-> feasible m2 nu)
    /\ (forall nu, objective_value m1 nu = objective_value m2 nu)
    /\ (forall v, optimal_value m1 v <-> optimal_value m2 v)
    /\ (forall v1 v2, optimal_value m1 v1 -> optimal_value m2 v2 -> v1 = v2).
Proof.
  intros dm A zero Hid Hdm HA.
  assert (HA' : conforming (apply_rp_map projector <$> A) dm s)
    by (rewrite (fmap_identity _ A Hid); exact HA).
  pose proof (projected_model_equivalent A dm zero s verbose) as Heq.
  exists (unprojected_model A dm zero s verbose),
         (projected_model A dm zero s verbose false).
  split.
  { unfold dm, A, zero. rewrite (second_level_build graph verbose n s rest Hdm HA).
    rewrite second_level_tail_solved. reflexivity. }
  split.
  { pose proof (projected_solved graph projector verbose false n s rest Hdm HA') as Hp.
    cbn zeta in Hp. rewrite (fmap_identity _ (A_L2 graph) Hid) in Hp. exact Hp. }
  split; [reflexivity |]. split; [reflexivity |].
  split; [intros nu; apply Heq |]. split; [intros nu; apply Heq |].
  split; [apply equivalent_optimal; exact Heq |].
  intros v1 v2 H1 H2. apply (optimal_value_unique _ v1 v2 H1).
  apply (equivalent_optimal _ _ Heq). exact H2.
Qed.

End WellFormed.

(** ** How far the builders get on an arbitrary input *)

Section Reach.

Context `{Environment}.

Local Open Scope R_scope.

Lemma conforming_usable (A : gmap monomial ndarray) (dm : list monomial) (s : nat) :
  conforming A dm s <-> Forall (usable A s) dm.
Proof.
  rewrite Forall_forall. unfold conforming, usable. split; intros Hall m Hm.
  - destruct (Hall m Hm) as (a & -> & Hs). exact Hs.
  - specialize (Hall m Hm). destruct (A !! m) as [a |]; [| contradiction].
    exists a. split; [reflexivity | exact Hall].
Qed.

Lemma non_constant_shorter (zero : monomial) (dm : list monomial) :
  zero ∈ dm -> (length (non_constant zero dm) < length dm)%nat.
Proof.
  unfold non_constant. induction dm as [| m dm IH]; intros Hin; [inversion Hin |].
  destruct (decide (m = zero)) as [-> | Hne].
  - rewrite filter_cons_False by (intros Hn; apply Hn; reflexivity).
    pose proof (length_filter (fun m => m ≠ zero) dm). cbn [length]. lia.
  - rewrite filter_cons_True by exact Hne. cbn [length].
    apply elem_of_cons in Hin as [-> | Hin]; [contradiction |].
    specialize (IH Hin). lia.
Qed.

(** The unprojected builder on any list that holds its zero monomial. *)
Lemma second_level_build_any (graph : Graph) (verbose : bool) (m0 : monomial) (s : nat) :
  let dm := distinct_monomials_L2 graph in
  let A := A_L2 graph in
  let zero := zero_tuple (length m0) in
  dm !! 0%nat = Some m0 ->
  zero ∈ dm ->
  conforming A dm s ->
  second_level_stable_set_problem_sdp graph verbose initial_world
  = second_level_tail A (length dm) s (length (non_constant zero dm))
      (built (unprojected_model A dm zero s verbose)).
Proof.
  intros dm A zero Hhead Hzero HA.
  assert (Hm0 : m0 ∈ dm) by (apply list_elem_of_lookup_2 in Hhead; exact Hhead).
  destruct (conforming_lookup _ _ _ _ HA Hm0) as [Ha0 Hs0].
  destruct (conforming_lookup _ _ _ _ HA Hzero) as [Haz Hsz].
  unfold second_level_stable_set_problem_sdp. fold dm. fold A.
  step ltac:(reflexivity).
  step ltac:(apply list_getitem_Some; exact Hhead).
  step ltac:(apply dict_getitem_Some; exact Ha0).
  rewrite Hs0. world_simpl. fold zero.
  step ltac:(reflexivity).
  step ltac:(reflexivity).
  step ltac:(reflexivity).
  erewrite bind_returned.
  2:{ apply (for_enumerate_constraints _ (fun _ => plain_constraint A 0%nat)).
      intros j m w' Hj Hv. world_simpl.
      assert (Hm : m ∈ dm).
      { apply list_elem_of_lookup_2 in Hj. apply list_elem_of_filter in Hj. tauto. }
      destruct (conforming_lookup _ _ _ _ HA Hm) as [Ha Hs].
      step ltac:(apply dict_getitem_Some; exact Ha).
      step ltac:(apply (Expr_dot_conforming _ _ s); [rewrite Hv; reflexivity | exact Hs]).
      step ltac:(apply dict_getitem_Some, C_dict_lookup; exact Hm).
      reflexivity. }
  world_simpl.
  step ltac:(apply dict_getitem_Some; exact Haz).
  step ltac:(apply (Expr_dot_conforming _ _ s); [reflexivity | exact Hsz]).
  step ltac:(apply dict_getitem_Some, C_dict_lookup; exact Hzero).
  step ltac:(reflexivity).
  step ltac:(reflexivity).
  step ltac:(destruct verbose; reflexivity).
  rewrite length_seq, (imap_ignore (plain_constraint A 0%nat)).
  reflexivity.
Qed.

Lemma for_enumerate_stops {V W : Type} (body : nat -> V -> py W)
    (I : world -> Prop) (bad : V -> Prop) (l : list V) :
  (forall i x w, I w -> solved (body i x w).2 = solved w /\ I (body i x w).2) ->
  (forall i x w, I w -> bad x -> exists e, (body i x w).1 = Raised e) ->
  Exists bad l ->
  forall i w, I w ->
    (exists e, (for_enumerate body i l w).1 = Raised e)
    /\ solved (for_enumerate body i l w).2 = solved w.
Proof.
  intros Hkeep Hbad. induction l as [| x l IH]; intros Hex i w HI; [inversion Hex |].
  cbn [for_enumerate].
  destruct (Hkeep i x w HI) as [Hsolved HI'].
  destruct (body i x w) as [[c | e] w1] eqn:Hbody; cbn [fst snd] in *.
  - apply Exists_cons in Hex as [Hx | Hl].
    { destruct (Hbad i x w HI Hx) as [e He]. rewrite Hbody in He. discriminate He. }
    destruct (IH Hl (S i) w1 HI') as [[e He] Hs].
    rewrite (bind_returned _ _ _ _ _ Hbody).
    destruct (for_enumerate body (S i) l w1) as [[cs | e'] w2] eqn:Hloop;
      cbn [fst snd] in *; [discriminate He |].
    rewrite (bind_raised _ _ _ _ _ Hloop). cbn [fst snd].
    split; [exists e'; reflexivity | rewrite Hs; exact Hsolved].
  - rewrite (bind_raised _ _ _ _ _ Hbody). cbn [fst snd].
    split; [exists e; reflexivity | exact Hsolved].
Qed.

(** The loop of the unprojected builder keeps the variables and hands
    nothing to the solver; on a monomial that is not usable it raises. *)
Lemma plain_body_keeps (A : gmap monomial ndarray) (C : gmap monomial R)
    (X : handle) (s : nat) (i : nat) (m : monomial) (w : world) :
  variables (session w) !! X = Some (PSDVar s) ->
  let o := (a ← dict_getitem A m;
            SOS_dot_X ← Expr_dot a X;
            c ← dict_getitem C m;
            M_constraint SOS_dot_X c) w in
  solved o.2 = solved w /\ variables (session o.2) !! X = Some (PSDVar s).
Proof.
  intros HX. cbn zeta.
  destruct (A !! m) as [a |] eqn:Ha.
  2:{ erewrite bind_raised by (apply dict_getitem_None; exact Ha). auto. }
  step ltac:(apply dict_getitem_Some; exact Ha).
  destruct (decide (shape a = (s, s))) as [Hs | Hs].
  2:{ erewrite bind_raised by (apply (Expr_dot_mismatch _ _ s); assumption). auto. }
  step ltac:(apply (Expr_dot_conforming _ _ s); assumption).
  destruct (C !! m) as [c |] eqn:Hc.
  2:{ erewrite bind_raised by (apply dict_getitem_None; exact Hc). auto. }
  step ltac:(apply dict_getitem_Some; exact Hc).
  cbn. auto.
Qed.

Lemma plain_body_raises (A : gmap monomial ndarray) (C : gmap monomial R)
    (X : handle) (s : nat) (i : nat) (m : monomial) (w : world) :
  variables (session w) !! X = Some (PSDVar s) ->
  ~ usable A s m ->
  exists e,
    ((a ← dict_getitem A m;
      SOS_dot_X ← Expr_dot a X;
      c ← dict_getitem C m;
      M_constraint SOS_dot_X c) w).1 = Raised e.
Proof.
  intros HX Hbad. unfold usable in Hbad.
  destruct (A !! m) as [a |] eqn:Ha.
  2:{ erewrite bind_raised by (apply dict_getitem_None; exact Ha). eexists; reflexivity. }
  step ltac:(apply dict_getitem_Some; exact Ha).
  erewrite bind_raised by (apply (Expr_dot_mismatch _ _ s); assumption).
  eexists; reflexivity.
Qed.

Lemma stops_raised {V : Type} (e : py_exn) (w : world) :
  solved w = [] -> stops (V := V) (Raised e, w).
Proof. intros Hs. split; [exists e; reflexivity | exact Hs]. Qed.

(** Whatever the graph, the unprojected builder stops before the solver or
    its input is well formed. *)
Lemma second_level_stops_or_well_formed (graph : Graph) (verbose : bool) :
  stops (second_level_stable_set_problem_sdp graph verbose initial_world)
  \/ well_formed (A_L2 graph) (distinct_monomials_L2 graph).
Proof.
  unfold second_level_stable_set_problem_sdp.
  set (A := A_L2 graph). set (dm := distinct_monomials_L2 graph).
  step ltac:(reflexivity).
  destruct dm as [| m0 rest] eqn:Hdm.
  { left. apply stops_raised. reflexivity. }
  step ltac:(reflexivity).
  destruct (A !! m0) as [a0 |] eqn:Ha0.
  2:{ left. erewrite bind_raised by (apply dict_getitem_None; exact Ha0).
      apply stops_raised. reflexivity. }
  step ltac:(apply dict_getitem_Some; exact Ha0).
  set (s := (shape a0).1). set (zero := zero_tuple (length m0)).
  step ltac:(reflexivity).
  step ltac:(reflexivity).
  step ltac:(reflexivity).
  rewrite <- Hdm.
  destruct (decide (Exists (fun m => ~ usable A s m) (filter (fun m => m ≠ zero) dm)))
    as [Hex | Hnone].
  { left.
    match goal with
    | |- stops ((for_enumerate ?body 0%nat ?l ≫= _) ?w0) =>
        destruct (for_enumerate_stops body
                    (fun u => variables (session u) !! 0%nat = Some (PSDVar s))
                    (fun m => ~ usable A s m) l
                    (fun i m u HX => plain_body_keeps A (C_dict dm) 0%nat s i m u HX)
                    (fun i m u HX Hb => plain_body_raises A (C_dict dm) 0%nat s i m u HX Hb)
                    Hex 0%nat w0 eq_refl) as [[e He] Hs];
        destruct (for_enumerate body 0%nat l w0) as [[cs | e'] w'] eqn:Hloop;
        cbn [fst snd] in He, Hs; [discriminate He |];
        erewrite bind_raised by exact Hloop; apply stops_raised; exact Hs
    end. }
  apply not_Exists_Forall in Hnone; [| intros m; apply _].
  assert (Hgood : forall m, m ∈ filter (fun m => m ≠ zero) dm -> usable A s m).
  { intros m Hm. rewrite Forall_forall in Hnone. specialize (Hnone m Hm). cbn in Hnone.
    destruct (decide (usable A s m)); [assumption | tauto]. }
  erewrite bind_returned.
  2:{ apply (for_enumerate_constraints _ (fun _ => plain_constraint A 0%nat)).
      intros j m w' Hj Hv. world_simpl.
      assert (Hm_in : m ∈ filter (fun m => m ≠ zero) dm)
        by (apply list_elem_of_lookup_2 in Hj; exact Hj).
      pose proof (Hgood m Hm_in) as Hu. unfold usable in Hu.
      destruct (A !! m) as [a |] eqn:Ha; [| contradiction].
      step ltac:(apply dict_getitem_Some; exact Ha).
      step ltac:(apply (Expr_dot_conforming _ _ s); [rewrite Hv; reflexivity | exact Hu]).
      step ltac:(apply dict_getitem_Some, C_dict_lookup;
                 apply list_elem_of_filter in Hm_in; tauto).
      unfold plain_constraint. rewrite (lookup_total_correct _ _ _ Ha). reflexivity. }
  world_simpl.
  destruct (A !! zero) as [az |] eqn:Haz.
  2:{ left. erewrite bind_raised by (apply dict_getitem_None; exact Haz).
      apply stops_raised. reflexivity. }
  step ltac:(apply dict_getitem_Some; exact Haz).
  destruct (decide (shape az = (s, s))) as [Hsz | Hsz].
  2:{ left. erewrite bind_raised by (apply (Expr_dot_mismatch _ _ s); [reflexivity | exact Hsz]).
      apply stops_raised. reflexivity. }
  step ltac:(apply (Expr_dot_conforming _ _ s); [reflexivity | exact Hsz]).
  destruct (decide (zero ∈ dm)) as [Hzero | Hzero].
  2:{ left. erewrite bind_raised by (apply dict_getitem_None, C_dict_lookup_None; exact Hzero).
      apply stops_raised. reflexivity. }
  right. exists m0, s. split; [rewrite Hdm; reflexivity |]. split; [exact Hzero |].
  apply conforming_usable, Forall_forall. intros m Hm.
  destruct (decide (m = zero)) as [-> | Hne].
  - unfold usable. rewrite Haz. exact Hsz.
  - apply Hgood, list_elem_of_filter. split; assumption.
Qed.

End Reach.

Section ReachProjected.

Context `{Environment}.

Local Open Scope R_scope.

Lemma for_enumerate_keeps {V W : Type} (body : nat -> V -> py W)
    (I : world -> Prop) (l : list V) :
  (forall i x w, I w -> solved (body i x w).2 = solved w /\ I (body i x w).2) ->
  forall i w, I w ->
    solved (for_enumerate body i l w).2 = solved w /\ I (for_enumerate body i l w).2.
Proof.
  intros Hkeep. induction l as [| x l IH]; intros i w HI; [cbn; auto |].
  cbn [for_enumerate].
  destruct (Hkeep i x w HI) as [Hsolved HI'].
  destruct (body i x w) as [[c | e] w1] eqn:Hbody; cbn [fst snd] in *.
  - rewrite (bind_returned _ _ _ _ _ Hbody).
    destruct (IH (S i) w1 HI') as [Hs HI''].
    destruct (for_enumerate body (S i) l w1) as [[cs | e'] w2] eqn:Hloop; cbn [fst snd] in *.
    + rewrite (bind_returned _ _ _ _ _ Hloop). cbn. split; [congruence | exact HI''].
    + rewrite (bind_raised _ _ _ _ _ Hloop). cbn. split; [congruence | exact HI''].
  - rewrite (bind_raised _ _ _ _ _ Hbody). cbn. auto.
Qed.

Lemma Variable_index_world (v : handle) (i : nat) (w : world) :
  (Variable_index v i w).2 = w.
Proof.
  unfold Variable_index.
  destruct (variables (session w) !! v) as [[n | n lo |] |]; try reflexivity.
  destruct (decide (i < n)%nat); reflexivity.
Qed.

Lemma slack_body_keeps (A : gmap monomial ndarray) (C : gmap monomial R) (X : handle)
    (slacks : option (handle * handle)) (vs : list var_decl)
    (i : nat) (m : monomial) (w : world) :
  variables (session w) = vs ->
  solved (slack_body A C X slacks i m w).2 = solved w
  /\ variables (session (slack_body A C X slacks i m w).2) = vs.
Proof.
  intros Hvs. unfold slack_body.
  destruct (A !! m) as [a |] eqn:Ha.
  2:{ erewrite bind_raised by (apply dict_getitem_None; exact Ha). auto. }
  step ltac:(apply dict_getitem_Some; exact Ha).
  destruct (Expr_dot a X w) as [[d | e] w1] eqn:Hdot.
  2:{ assert (w1 = w) as ->.
      { unfold Expr_dot in Hdot. repeat case_match; congruence. }
      erewrite bind_raised by exact Hdot. auto. }
  assert (w1 = w) as ->.
  { unfold Expr_dot in Hdot. repeat case_match; congruence. }
  step ltac:(exact Hdot).
  assert (Hdiff : exists r,
            (match slacks with
             | Some (lb_variables, ub_variables) =>
                 l ← Variable_index lb_variables (i + 1);
                 u ← Variable_index ub_variables (i + 1);
                 mret (ESub l u)
             | None => mret (EConst 0)
             end) w = (r, w)).
  { destruct slacks as [[lb ub] |]; [| eexists; reflexivity].
    pose proof (Variable_index_world lb (i + 1) w) as Hl.
    destruct (Variable_index lb (i + 1) w) as [[l | e] wl] eqn:Hlb; cbn in Hl; subst wl.
    2:{ erewrite bind_raised by exact Hlb. eexists; reflexivity. }
    erewrite bind_returned by exact Hlb.
    pose proof (Variable_index_world ub (i + 1) w) as Hu.
    destruct (Variable_index ub (i + 1) w) as [[u | e] wu] eqn:Hub; cbn in Hu; subst wu.
    2:{ erewrite bind_raised by exact Hub. eexists; reflexivity. }
    erewrite bind_returned by exact Hub. eexists; reflexivity. }
  destruct Hdiff as [[diff | e] Hdiff].
  2:{ erewrite bind_raised by exact Hdiff. auto. }
  erewrite bind_returned by exact Hdiff.
  destruct (C !! m) as [c |] eqn:Hc.
  2:{ erewrite bind_raised by (apply dict_getitem_None; exact Hc). auto. }
  step ltac:(apply dict_getitem_Some; exact Hc).
  cbn. auto.
Qed.

Lemma slack_body_raises (A : gmap monomial ndarray) (C : gmap monomial R) (X : handle)
    (slacks : option (handle * handle)) (s : nat) (i : nat) (m : monomial) (w : world) :
  variables (session w) !! X = Some (PSDVar s) ->
  ~ usable A s m ->
  exists e, (slack_body A C X slacks i m w).1 = Raised e.
Proof.
  intros HX Hbad. unfold usable in Hbad. unfold slack_body.
  destruct (A !! m) as [a |] eqn:Ha.
  2:{ erewrite bind_raised by (apply dict_getitem_None; exact Ha). eexists; reflexivity. }
  step ltac:(apply dict_getitem_Some; exact Ha).
  erewrite bind_raised by (apply (Expr_dot_mismatch _ _ s); assumption).
  eexists; reflexivity.
Qed.

End ReachProjected.

Section ReachProjected2.

Context `{Environment}.

Local Open Scope R_scope.

(** The projected builder on any list that holds its zero monomial. *)
Lemma projected_build_any (graph : Graph) (projector : RandomProjector)
    (verbose slack : bool) (m0 : monomial) (k : nat) :
  let A := apply_rp_map projector <$> A_L2 graph in
  let dm := distinct_monomials_L2 graph in
  let zero := zero_tuple (length m0) in
  dm !! 0%nat = Some m0 ->
  zero ∈ dm ->
  conforming A dm k ->
  projected_second_level_stable_set_problem_sdp graph projector verbose slack initial_world
  = projected_tail slack k (length (non_constant zero dm))
      (built (projected_model A dm zero k verbose slack)).
Proof.
  intros A dm zero Hhead Hzero HA.
  assert (Hm0 : m0 ∈ dm) by (apply list_elem_of_lookup_2 in Hhead; exact Hhead).
  destruct (conforming_lookup _ _ _ _ HA Hm0) as [Ha0 Hs0].
  destruct (conforming_lookup _ _ _ _ HA Hzero) as [Haz Hsz].
  assert (Hbound : forall j m, non_constant zero dm !! j = Some m ->
                               (j + 1 < length dm)%nat).
  { intros j m Hj. apply lookup_lt_Some in Hj.
    pose proof (non_constant_shorter zero dm Hzero). lia. }
  assert (Hpos : (0 < length dm)%nat) by (apply lookup_lt_Some in Hhead; exact Hhead).
  assert (Hin : forall j m, filter (fun m => m ≠ zero) dm !! j = Some m -> m ∈ dm).
  { intros j m Hj. apply list_elem_of_lookup_2 in Hj.
    apply list_elem_of_filter in Hj. tauto. }
  unfold projected_second_level_stable_set_problem_sdp.
  fold A. fold dm.
  step ltac:(reflexivity).
  step ltac:(apply list_getitem_Some; exact Hhead).
  step ltac:(apply dict_getitem_Some; exact Ha0).
  rewrite Hs0. world_simpl. fold zero.
  step ltac:(reflexivity).
  destruct slack.
  - erewrite bind_returned.
    2:{ step ltac:(reflexivity). step ltac:(reflexivity). reflexivity. }
    world_simpl.
    step ltac:(apply array_setitem0_replicate; exact Hpos).
    step ltac:(reflexivity).
    step ltac:(reflexivity).
    erewrite bind_returned.
    2:{ apply (for_enumerate_constraints _
                 (slack_constraint A 0%nat (Some (1%nat, 2%nat)))).
        intros j m w' Hj Hv. world_simpl.
        destruct (conforming_lookup _ _ _ _ HA (Hin _ _ Hj)) as [Ha Hs].
        step ltac:(apply dict_getitem_Some; exact Ha).
        step ltac:(apply (Expr_dot_conforming _ _ k); [rewrite Hv; reflexivity | exact Hs]).
        erewrite bind_returned.
        2:{ step ltac:(apply (Variable_index_in_range _ _ (length dm) 0);
                       [rewrite Hv; reflexivity | apply (Hbound _ _ Hj)]).
            step ltac:(apply (Variable_index_in_range _ _ (length dm) 0);
                       [rewrite Hv; reflexivity | apply (Hbound _ _ Hj)]).
            reflexivity. }
        step ltac:(apply dict_getitem_Some, C_dict_lookup; exact (Hin _ _ Hj)).
        reflexivity. }
    world_simpl.
    step ltac:(apply dict_getitem_Some; exact Haz).
    step ltac:(apply (Expr_dot_conforming _ _ k); [reflexivity | exact Hsz]).
    step ltac:(apply dict_getitem_Some, C_dict_lookup; exact Hzero).
    step ltac:(reflexivity).
    step ltac:(reflexivity).
    step ltac:(destruct verbose; reflexivity).
    rewrite ?length_seq. reflexivity.
  - step ltac:(reflexivity).
    step ltac:(apply array_setitem0_replicate; exact Hpos).
    step ltac:(reflexivity).
    step ltac:(reflexivity).
    erewrite bind_returned.
    2:{ apply (for_enumerate_constraints _ (slack_constraint A 0%nat None)).
        intros j m w' Hj Hv. world_simpl.
        destruct (conforming_lookup _ _ _ _ HA (Hin _ _ Hj)) as [Ha Hs].
        step ltac:(apply dict_getitem_Some; exact Ha).
        step ltac:(apply (Expr_dot_conforming _ _ k); [rewrite Hv; reflexivity | exact Hs]).
        step ltac:(reflexivity).
        step ltac:(apply dict_getitem_Some, C_dict_lookup; exact (Hin _ _ Hj)).
        reflexivity. }
    world_simpl.
    step ltac:(apply dict_getitem_Some; exact Haz).
    step ltac:(apply (Expr_dot_conforming _ _ k); [reflexivity | exact Hsz]).
    step ltac:(apply dict_getitem_Some, C_dict_lookup; exact Hzero).
    step ltac:(reflexivity).
    step ltac:(reflexivity).
    step ltac:(destruct verbose; reflexivity).
    rewrite ?length_seq. reflexivity.
Qed.

Lemma Expr_dot_world (a : ndarray) (X : handle) (w : world) :
  (Expr_dot a X w).2 = w.
Proof.
  unfold Expr_dot.
  destruct (variables (session w) !! X) as [[n | n lo |] |]; try reflexivity.
  destruct (decide (shape a = (n, n))); reflexivity.
Qed.

(** Once the loop is over, a list without the zero monomial makes either
    builder raise: at the latest when [C] is read at the constant. *)
Lemma constant_missing_stops {V : Type} (A : gmap monomial ndarray)
    (dm : list monomial) (zero : monomial) (X b : handle)
    (k : nat -> py V) (w : world) :
  zero ∉ dm -> solved w = [] ->
  stops ((a_const ← dict_getitem A zero;
          dot_const ← Expr_dot a_const X;
          c_const ← dict_getitem (C_dict dm) zero;
          c0 ← M_constraint (EAdd dot_const (EVar b)) c_const;
          k c0) w).
Proof.
  intros Hzero Hs.
  destruct (A !! zero) as [az |] eqn:Haz.
  2:{ erewrite bind_raised by (apply dict_getitem_None; exact Haz).
      apply stops_raised. exact Hs. }
  erewrite bind_returned by (apply dict_getitem_Some; exact Haz).
  pose proof (Expr_dot_world az X w) as Hw.
  destruct (Expr_dot az X w) as [[d | e] w1] eqn:Hdot; cbn in Hw; subst w1.
  2:{ erewrite bind_raised by exact Hdot. apply stops_raised. exact Hs. }
  erewrite bind_returned by exact Hdot.
  erewrite bind_raised by (apply dict_getitem_None, C_dict_lookup_None; exact Hzero).
  apply stops_raised. exact Hs.
Qed.

(** From the loop on, the projected builder stops before the solver unless
    the list holds the zero monomial and all its monomials are usable. *)
Lemma projected_rest_stops {V : Type} (A : gmap monomial ndarray)
    (dm : list monomial) (zero : monomial) (X b : handle)
    (slacks : option (handle * handle)) (s : nat)
    (K : list nat -> nat -> py V) (w : world) :
  variables (session w) !! X = Some (PSDVar s) ->
  solved w = [] ->
  stops ((constraints ← for_enumerate (slack_body A (C_dict dm) X slacks) 0
                          (filter (fun m => m ≠ zero) dm);
          a_const ← dict_getitem A zero;
          dot_const ← Expr_dot a_const X;
          c_const ← dict_getitem (C_dict dm) zero;
          c0 ← M_constraint (EAdd dot_const (EVar b)) c_const;
          K constraints c0) w)
  \/ (zero ∈ dm /\ Forall (usable A s) dm).
Proof.
  intros HX Hs.
  set (body := slack_body A (C_dict dm) X slacks).
  set (l := filter (fun m => m ≠ zero) dm).
  pose proof (for_enumerate_keeps body
                (fun u => variables (session u) = variables (session w)) l
                (fun i m u Hu => slack_body_keeps A (C_dict dm) X slacks _ i m u Hu)
                0%nat w eq_refl) as [Hkeep Hvars].
  destruct (decide (zero ∈ dm /\ Forall (usable A s) dm)) as [Hgood | Hbad];
    [right; exact Hgood | left].
  destruct (for_enumerate body 0 l w) as [[cs | e] w1] eqn:Hloop; cbn [fst snd] in *.
  2:{ erewrite bind_raised by exact Hloop. apply stops_raised. congruence. }
  erewrite bind_returned by exact Hloop.
  assert (Hs1 : solved w1 = []) by congruence.
  destruct (decide (zero ∈ dm)) as [Hzero | Hzero];
    [| apply constant_missing_stops; assumption].
  assert (Hex : Exists (fun m => ~ usable A s m) dm).
  { apply not_Forall_Exists; [intros m; apply _ |]. tauto. }
  apply Exists_exists in Hex as (m & Hm & Hu).
  destruct (decide (m = zero)) as [-> | Hne].
  - unfold usable in Hu.
    destruct (A !! zero) as [az |] eqn:Haz.
    2:{ erewrite bind_raised by (apply dict_getitem_None; exact Haz).
        apply stops_raised. exact Hs1. }
    erewrite bind_returned by (apply dict_getitem_Some; exact Haz).
    erewrite bind_raised
      by (apply (Expr_dot_mismatch _ _ s); [rewrite Hvars; exact HX | exact Hu]).
    apply stops_raised. exact Hs1.
  - exfalso.
    assert (Hexl : Exists (fun m => ~ usable A s m) l).
    { apply Exists_exists. exists m. split; [| exact Hu].
      apply list_elem_of_filter. split; assumption. }
    destruct (for_enumerate_stops body
                (fun u => variables (session u) !! X = Some (PSDVar s))
                (fun m => ~ usable A s m) l) with (i := 0%nat) (w := w)
      as [[e He] _]; try assumption.
    + intros i x u Hu'.
      destruct (slack_body_keeps A (C_dict dm) X slacks (variables (session u)) i x u eq_refl)
        as [Hk Hv].
      split; [exact Hk |]. unfold body. rewrite Hv. exact Hu'.
    + intros i x u Hu' Hx. apply (slack_body_raises A (C_dict dm) X slacks s i x u Hu' Hx).
    + rewrite Hloop in He. discriminate He.
Qed.

Lemma projected_stops_or_well_formed (graph : Graph) (projector : RandomProjector)
    (verbose slack : bool) :
  stops (projected_second_level_stable_set_problem_sdp graph projector verbose slack
           initial_world)
  \/ well_formed (apply_rp_map projector <$> A_L2 graph) (distinct_monomials_L2 graph).
Proof.
  unfold projected_second_level_stable_set_problem_sdp.
  set (A := apply_rp_map projector <$> A_L2 graph). set (dm := distinct_monomials_L2 graph).
  step ltac:(reflexivity).
  destruct dm as [| m0 rest] eqn:Hdm.
  { left. apply stops_raised. reflexivity. }
  step ltac:(reflexivity).
  destruct (A !! m0) as [a0 |] eqn:Ha0.
  2:{ left. erewrite bind_raised by (apply dict_getitem_None; exact Ha0).
      apply stops_raised. reflexivity. }
  step ltac:(apply dict_getitem_Some; exact Ha0).
  set (s := (shape a0).1). set (zero := zero_tuple (length m0)).
  step ltac:(reflexivity).
  assert (Hfinish : zero ∈ m0 :: rest /\ Forall (usable A s) (m0 :: rest) ->
                    well_formed A (m0 :: rest)).
  { intros [Hzero Hall]. exists m0, s. split; [reflexivity |]. split; [exact Hzero |].
    apply conforming_usable. exact Hall. }
  destruct slack.
  - erewrite bind_returned.
    2:{ step ltac:(reflexivity). step ltac:(reflexivity). reflexivity. }
    world_simpl.
    step ltac:(reflexivity).
    step ltac:(reflexivity).
    step ltac:(reflexivity).
    match goal with
    | |- stops (_ ?w0) \/ _ =>
        destruct (projected_rest_stops A (m0 :: rest) zero 0%nat 3%nat
                    (Some (1%nat, 2%nat)) s
                    (fun constraints c0 =>
                       time_end ← time_time;
                       (if verbose then M_setLogHandler else mret tt);;
                       projected_tail true s (length constraints))
                    w0 eq_refl eq_refl) as [Hstop | Hgood]
    end; [left; exact Hstop | right; apply Hfinish, Hgood].
  - step ltac:(reflexivity).
    step ltac:(reflexivity).
    step ltac:(reflexivity).
    step ltac:(reflexivity).
    match goal with
    | |- stops (_ ?w0) \/ _ =>
        destruct (projected_rest_stops A (m0 :: rest) zero 0%nat 1%nat None s
                    (fun constraints c0 =>
                       time_end ← time_time;
                       (if verbose then M_setLogHandler else mret tt);;
                       projected_tail false s (length constraints))
                    w0 eq_refl eq_refl) as [Hstop | Hgood]
    end; [left; exact Hstop | right; apply Hfinish, Hgood].
Qed.

End ReachProjected2.

(** ** A matrix that is not square of the order of [X] *)

Section MismatchOrder.

Context `{Environment}.

Local Open Scope R_scope.

Lemma second_level_mismatch_order (graph : Graph) (verbose : bool) (n s : nat)
    (rest : list monomial) :
  let dm := distinct_monomials_L2 graph in
  let A := A_L2 graph in
  let zero := zero_tuple n in
  dm = zero :: rest ->
  (forall m, m ∈ dm -> is_Some (A !! m)) ->
  (shape (A !!! zero)).1 = s ->
  (exists m, m ∈ dm /\ shape (A !!! m) ≠ (s, s)) ->
  exists w,
    second_level_stable_set_problem_sdp graph verbose initial_world
    = (Raised DimensionError, w)
    /\ solved w = [].
Proof.
  intros dm A zero Hdm Hkeys Hrows (bad & Hbad_in & Hbad).
  assert (Hzero : zero ∈ dm) by (rewrite Hdm; left).
  destruct (Hkeys zero Hzero) as [a0 Ha0].
  assert (Htotal0 : A !!! zero = a0) by (apply lookup_total_correct; exact Ha0).
  rewrite Htotal0 in Hrows.
  assert (Hhead : dm !! 0%nat = Some zero) by (rewrite Hdm; reflexivity).
  assert (Hlen : length zero = n) by apply length_replicate.
  assert (Hloop_keys : forall m, m ∈ filter (fun m => m ≠ zero) dm ->
                         is_Some (A !! m) /\ is_Some (C_dict dm !! m)).
  { intros m Hm. apply list_elem_of_filter in Hm as [_ Hm].
    split; [apply Hkeys; exact Hm | rewrite C_dict_lookup by exact Hm; eexists; reflexivity]. }
  unfold second_level_stable_set_problem_sdp. fold dm. fold A.
  step ltac:(reflexivity).
  step ltac:(apply list_getitem_Some; exact Hhead).
  step ltac:(apply dict_getitem_Some; exact Ha0).
  rewrite Hrows, Hlen. fold zero.
  step ltac:(reflexivity).
  step ltac:(reflexivity).
  step ltac:(reflexivity).
  destruct (decide (Exists (fun m => shape (A !!! m) ≠ (s, s))
                      (filter (fun m => m ≠ zero) dm))) as [Hex | Hnone].
  - edestruct (for_enumerate_mismatch A (C_dict dm) 0%nat s
                 (filter (fun m => m ≠ zero) dm) 0%nat) as (w' & Hrun & Hsolved);
      [| exact Hloop_keys | exact Hex |].
    2:{ erewrite bind_raised by exact Hrun. exists w'. split; [reflexivity | exact Hsolved]. }
    reflexivity.
  - apply not_Exists_Forall in Hnone; [| intros m; apply _].
    assert (Hbad0 : shape a0 ≠ (s, s)).
    { destruct (decide (bad = zero)) as [-> | Hne]; [rewrite <- Htotal0; exact Hbad |].
      exfalso. rewrite Forall_forall in Hnone.
      apply (Hnone bad); [| exact Hbad].
      apply list_elem_of_filter. split; assumption. }
    erewrite bind_returned.
    2:{ apply (for_enumerate_constraints _ (fun _ => plain_constraint A 0%nat)).
        intros j m w' Hj Hv. world_simpl.
        assert (Hm_in : m ∈ filter (fun m => m ≠ zero) dm)
          by (apply list_elem_of_lookup_2 in Hj; exact Hj).
        destruct (Hloop_keys m Hm_in) as [[a Ha] _].
        assert (Hgood : shape (A !!! m) = (s, s)).
        { rewrite Forall_forall in Hnone. specialize (Hnone m Hm_in). cbn in Hnone.
          destruct (decide (shape (A !!! m) = (s, s))); [assumption | tauto]. }
        rewrite (lookup_total_correct _ _ _ Ha) in Hgood.
        step ltac:(apply dict_getitem_Some; exact Ha).
        step ltac:(apply (Expr_dot_conforming _ _ s); [rewrite Hv; reflexivity | exact Hgood]).
        step ltac:(apply dict_getitem_Some, C_dict_lookup;
                   apply list_elem_of_filter in Hm_in; tauto).
        unfold plain_constraint. rewrite (lookup_total_correct _ _ _ Ha). reflexivity. }
    world_simpl.
    step ltac:(apply dict_getitem_Some; exact Ha0).
    erewrite bind_raised by (apply (Expr_dot_mismatch _ _ s); [reflexivity | exact Hbad0]).
    eexists. split; reflexivity.
Qed.

End MismatchOrder.

(** ** The records the builders return *)

Section Returned.

Context `{Environment}.

Local Open Scope R_scope.

Lemma second_level_returned (graph : Graph) (verbose : bool) (sol : solution) (w : world) :
  second_level_stable_set_problem_sdp graph verbose initial_world = (Returned sol, w) ->
  exists m ans,
    solved w = [m] /\ solver m = Some ans /\ sol_objective sol = primalObjValue ans.
Proof.
  intros Hrun.
  destruct (second_level_stops_or_well_formed graph verbose)
    as [[[e He] _] | (m0 & s & Hhead & Hzero & HA)].
  { rewrite Hrun in He. discriminate He. }
  rewrite (second_level_build_any graph verbose m0 s Hhead Hzero HA) in Hrun.
  rewrite second_level_tail_run in Hrun.
  cbn [built session solved ticks stdout app] in Hrun.
  set (m := unprojected_model _ _ _ _ _) in Hrun.
  destruct (solve_fails m); [discriminate Hrun |].
  destruct (solver m) as [ans |] eqn:Hsolver; [| discriminate Hrun].
  destruct (np_report _ _ _ _ _) as [[[] | e] out]; [| discriminate Hrun].
  injection Hrun as <- <-. exists m, ans.
  split; [reflexivity |]. split; [exact Hsolver | reflexivity].
Qed.

Lemma projected_returned (graph : Graph) (projector : RandomProjector)
    (verbose slack : bool) (sol : solution) (w : world) :
  projected_second_level_stable_set_problem_sdp graph projector verbose slack initial_world
  = (Returned sol, w) ->
  exists m ans,
    solved w = [m] /\ solver m = Some ans /\ sol_objective sol = primalObjValue ans.
Proof.
  intros Hrun.
  destruct (projected_stops_or_well_formed graph projector verbose slack)
    as [[[e He] _] | (m0 & k & Hhead & Hzero & HA)].
  { rewrite Hrun in He. discriminate He. }
  rewrite (projected_build_any graph projector verbose slack m0 k Hhead Hzero HA) in Hrun.
  rewrite projected_tail_run in Hrun.
  cbn [built session solved ticks stdout app] in Hrun.
  set (m := projected_model _ _ _ _ _ _) in Hrun.
  destruct (solve_fails m); [discriminate Hrun |].
  destruct (solver m) as [ans |] eqn:Hsolver; [| discriminate Hrun].
  injection Hrun as <- <-. exists m, ans.
  split; [reflexivity |]. split; [exact Hsolver | reflexivity].
Qed.

Lemma accurate_close (tol : R) (m1 m2 : model) (a1 a2 : answer) :
  (forall v, optimal_value m1 v <-> optimal_value m2 v) ->
  solver m1 = Some a1 -> solver m2 = Some a2 ->
  accurate tol m1 -> accurate tol m2 ->
  Rabs (primalObjValue a1 - primalObjValue a2) <= 2 * tol.
Proof.
  intros Hopt H1 H2 Hacc1 Hacc2.
  destruct (Hacc1 a1 H1) as (v1 & Hv1 & Hd1).
  destruct (Hacc2 a2 H2) as (v2 & Hv2 & Hd2).
  assert (Hv : v1 = v2) by (apply (optimal_value_unique m2); [apply Hopt |]; assumption).
  subst v2.
  replace (primalObjValue a1 - primalObjValue a2)
    with ((primalObjValue a1 - v1) + - (primalObjValue a2 - v1)) by lra.
  eapply Rle_trans; [apply Rabs_triang |]. rewrite Rabs_Ropp. lra.
Qed.

End Returned.

Section SampleReturns.

Local Open Scope R_scope.

Lemma exact_env_accurate (m : model) :
  optimal_value m (-1) -> accurate (H := Sample.exact_env) 0 m.
Proof.
  intros Hopt ans Hans. injection Hans as <-. exists (-1). split; [exact Hopt |].
  cbn [primalObjValue]. replace (-1 - -1) with 0 by lra. rewrite Rabs_R0. lra.
Qed.

Lemma unit_order_returns :
  exists sol1 w1 sol2 w2,
    second_level_stable_set_problem_sdp (H := Sample.exact_env) Sample.unit_order false
      initial_world = (Returned sol1, w1)
    /\ projected_second_level_stable_set_problem_sdp (H := Sample.exact_env)
         Sample.unit_order Sample.identity_projector false false initial_world
       = (Returned sol2, w2)
    /\ solved w1 = [unprojected_model (A_L2 Sample.unit_order)
                      (distinct_monomials_L2 Sample.unit_order) (zero_tuple 1) 1 false]
    /\ solved w2 = [projected_model (A_L2 Sample.unit_order)
                      (distinct_monomials_L2 Sample.unit_order) (zero_tuple 1) 1 false false].
Proof.
  pose proof (second_level_build (H := Sample.exact_env) Sample.unit_order false 1 1
                [[1%nat]] eq_refl unit_order_conforming) as Hb1.
  pose proof (projected_build (H := Sample.exact_env) Sample.unit_order
                Sample.identity_projector false false 1 1 [[1%nat]] eq_refl
                (identity_conforming _ _ unit_order_conforming)) as Hb2.
  cbn zeta in Hb2.
  rewrite (fmap_identity (apply_rp_map Sample.identity_projector) (A_L2 Sample.unit_order)
             (fun a => eq_refl)) in Hb2.
  rewrite Hb1, Hb2, second_level_tail_run, projected_tail_run.
  cbn [built session solved ticks stdout app].
  eexists. eexists. eexists. eexists.
  split; [reflexivity |]. split; [reflexivity |]. split; reflexivity.
Qed.

End SampleReturns.

(** * The claims *)

(** ** Dimension bound calculator *)

Section BoundClaims.

Local Open Scope R_scope.










End BoundClaims.

(** ** Relaxation builders *)

Section BuilderClaims.

Context `{Environment}.

Local Open Scope R_scope.

(** C1.  On a graph whose monomial list starts with the zero monomial (and
    whose listed monomials all have a matrix of order [s]), the unprojected
    builder hands one model to the solver: it maximises the free scalar [b],
    holds one constraint <A[m], X> = C[m] per non-constant monomial and the
    constraint <A[zero], X> + b = C[zero], where C[m] is -1 when the
    exponents of [m] sum to 1 and 0 otherwise. *)
Theorem second_level_relaxation (graph : Graph) (verbose : bool) (n s : nat)
    (rest : list monomial) :
  let dm := distinct_monomials_L2 graph in
  let A := A_L2 graph in
  let zero := zero_tuple n in
  dm = zero :: rest ->
  conforming A dm s ->
  exists m,
    solved (second_level_stable_set_problem_sdp graph verbose initial_world).2 = [m]
    /\ variables m = [PSDVar s; ScalarVar]
    /\ objective m = Some (Maximize, EVar 1%nat)
    /\ constraints m
       = ((fun mono => (EDotMatrix (A !!! mono) 0%nat, C_value mono))
            <$> non_constant zero dm)
         ++ [(EAdd (EDotMatrix (A !!! zero) 0%nat) (EVar 1%nat), C_value zero)]
    /\ (forall nu,
          Forall (satisfies nu) (constraints m)
          <-> (forall mono, mono ∈ dm -> mono ≠ zero ->
                 frobenius (A !!! mono) (psd_value nu 0%nat) = C_value mono)
              /\ frobenius (A !!! zero) (psd_value nu 0%nat) + scalar_value nu 1%nat
                 = C_value zero)
    /\ (forall mono, mono ∈ dm ->
          C_dict dm !! mono = Some (if decide (sum_list mono = 1%nat) then -1 else 0)).
Proof.
  intros dm A zero Hdm HA.
  exists (unprojected_model A dm zero s verbose).
  split; [| split; [| split; [| split; [| split]]]]; try reflexivity.
  - unfold dm, A, zero. rewrite (second_level_build graph verbose n s rest Hdm HA).
    rewrite second_level_tail_solved. reflexivity.
  - intros nu. cbn [constraints unprojected_model].
    rewrite Forall_app, Forall_fmap, Forall_forall, Forall_singleton.
    rewrite satisfies_constant.
    split; intros [Hnc Hc]; (split; [| exact Hc]).
    + intros mono Hin Hne. apply (satisfies_plain nu A 0%nat mono), Hnc.
      apply non_constant_elem. split; assumption.
    + intros mono Hin. apply non_constant_elem in Hin as [Hne Hin].
      apply satisfies_plain, Hnc; assumption.
  - intros mono Hin. apply C_dict_lookup. exact Hin.
Qed.

(** C2.  The projected builder applies the projector to every matrix of
    [A]; with slack enabled (and the projected matrices of the listed
    monomials all of order [k]) the model handed to the solver has a matrix
    variable of order [k], two vectors of non-negative slacks, the constraint
    <A'[m_i], X'> + lb_i - ub_i = C[m_i] for the [i]-th non-constant monomial,
    whose slack pair sits at position [i + 1], and the constraint
    <A'[zero], X'> + b = C[zero] without slack. *)
Theorem projected_relaxation_with_slack (graph : Graph) (projector : RandomProjector)
    (verbose : bool) (n k : nat) (rest : list monomial) :
  let dm := distinct_monomials_L2 graph in
  let A' := apply_rp_map projector <$> A_L2 graph in
  let zero := zero_tuple n in
  dm = zero :: rest ->
  conforming A' dm k ->
  (forall mono a, A_L2 graph !! mono = Some a ->
     A' !! mono = Some (apply_rp_map projector a))
  /\ (forall mono, mono ∈ dm -> shape (A' !!! mono) = (k, k))
  /\ exists m,
       solved (projected_second_level_stable_set_problem_sdp graph projector verbose true
                 initial_world).2 = [m]
       /\ variables m
          = [PSDVar k; VecVar (length dm) 0; VecVar (length dm) 0; ScalarVar]
       /\ constraints m
          = imap (fun i mono =>
                    (EAdd (EDotMatrix (A' !!! mono) 0%nat)
                       (ESub (EIndex 1%nat (i + 1)) (EIndex 2%nat (i + 1))),
                     C_value mono))
              (non_constant zero dm)
            ++ [(EAdd (EDotMatrix (A' !!! zero) 0%nat) (EVar 3%nat), C_value zero)]
       /\ (forall nu,
             feasible m nu
             <-> is_psd k (psd_value nu 0%nat)
                 /\ (forall i, (i < length dm)%nat -> 0 <= vec_value nu 1%nat i)
                 /\ (forall i, (i < length dm)%nat -> 0 <= vec_value nu 2%nat i)
                 /\ (forall i mono, non_constant zero dm !! i = Some mono ->
                       frobenius (A' !!! mono) (psd_value nu 0%nat)
                       + vec_value nu 1%nat (i + 1) - vec_value nu 2%nat (i + 1)
                       = C_value mono)
                 /\ frobenius (A' !!! zero) (psd_value nu 0%nat) + scalar_value nu 3%nat
                    = C_value zero).
Proof.
  intros dm A' zero Hdm HA.
  split; [| split].
  - intros mono a Ha. unfold A'. rewrite lookup_fmap, Ha. reflexivity.
  - intros mono Hin. apply (conforming_lookup _ _ _ _ HA Hin).
  - exists (projected_model A' dm zero k verbose true).
    split; [| split; [| split]]; try reflexivity.
    + apply (projected_solved graph projector verbose true n k rest Hdm HA).
    + intros nu. unfold feasible. cbn [variables constraints projected_model].
      rewrite Forall_app, Forall_singleton, slack_constraints_satisfied, satisfies_constant.
      split.
      * intros (Hvars & Hc & Hz).
        pose proof (Hvars 0%nat _ eq_refl) as Hx.
        pose proof (Hvars 1%nat _ eq_refl) as Hlb.
        pose proof (Hvars 2%nat _ eq_refl) as Hub.
        split; [exact Hx | split; [exact Hlb | split; [exact Hub | split; assumption]]].
      * intros (Hx & Hlb & Hub & Hc & Hz).
        split; [| split; assumption].
        intros h d Hh.
        destruct h as [| [| [| [| h]]]]; cbn in Hh; try discriminate;
          injection Hh as <-; cbn [in_domain]; try assumption; exact I.
Qed.

(** C3 (amended).  With slack enabled the projected builder maximises
    b + sum_i ((0 - eps) * lb_i - (1 + eps) * ub_i), with eps = 1e-5 and the
    sum over the non-constant monomials (the slack pair of the [i]-th one at
    position [i + 1]); with slack disabled it maximises b alone. *)
Theorem projected_objective (graph : Graph) (projector : RandomProjector)
    (verbose : bool) (n k : nat) (rest : list monomial) :
  let dm := distinct_monomials_L2 graph in
  let A' := apply_rp_map projector <$> A_L2 graph in
  let zero := zero_tuple n in
  dm = zero :: rest ->
  zero ∉ rest ->
  conforming A' dm k ->
  exists m_slack m_plain e,
    solved (projected_second_level_stable_set_problem_sdp graph projector verbose true
              initial_world).2 = [m_slack]
    /\ solved (projected_second_level_stable_set_problem_sdp graph projector verbose false
                 initial_world).2 = [m_plain]
    /\ objective m_slack = Some (Maximize, e)
    /\ (forall nu,
          eval nu e
          = scalar_value nu 3%nat
            + sum_upto (length (non_constant zero dm)) (fun i =>
                (0 - epsilon) * vec_value nu 1%nat (i + 1)
                - (1 + epsilon) * vec_value nu 2%nat (i + 1)))
    /\ epsilon = 1 / 100000
    /\ objective m_plain = Some (Maximize, EVar 1%nat)
    /\ (forall nu, objective_value m_plain nu = scalar_value nu 1%nat).
Proof.
  intros dm A' zero Hdm Hnot HA.
  exists (projected_model A' dm zero k verbose true),
         (projected_model A' dm zero k verbose false),
         (slack_objective 1%nat 2%nat 3%nat (ones_vector (length dm))).
  split; [apply (projected_solved graph projector verbose true n k rest Hdm HA) |].
  split; [apply (projected_solved graph projector verbose false n k rest Hdm HA) |].
  split; [reflexivity |].
  split.
  - intros nu. rewrite Hdm, (non_constant_all zero rest Hnot). cbn [length].
    apply slack_objective_value.
  - split; [apply epsilon_value |]. split; reflexivity.
Qed.

(** C10.  With slack enabled and the zero monomial first, [lb_variables] and
    [ub_variables] have one entry per listed monomial, the constant one
    included.  The model holds the constraints of the non-constant monomials,
    in order, followed by the constraint of the constant monomial, and
    nothing else.  Entry 0 of either slack vector is read by no constraint
    and weighs 0 in the objective: moving it changes neither the truth of a
    constraint nor the objective.  The constraint of the [i]-th non-constant
    monomial reads the pair at position [i + 1] and no other slack entry, the
    constraint of the constant monomial reads none, so no two constraints
    share a slack entry. *)
Theorem slack_positions (graph : Graph) (projector : RandomProjector)
    (verbose : bool) (n k : nat) (rest : list monomial) :
  let dm := distinct_monomials_L2 graph in
  let A' := apply_rp_map projector <$> A_L2 graph in
  let zero := zero_tuple n in
  dm = zero :: rest ->
  conforming A' dm k ->
  exists m ones,
    solved (projected_second_level_stable_set_problem_sdp graph projector verbose true
              initial_world).2 = [m]
    /\ variables m = [PSDVar k; VecVar (length dm) 0; VecVar (length dm) 0; ScalarVar]
    /\ objective m
       = Some (Maximize,
               EAdd (EVar 3%nat)
                 (ESub (EMul dual_lower_bound (EDotVector 1%nat ones))
                       (EMul dual_upper_bound (EDotVector 2%nat ones))))
    /\ length ones = length dm
    /\ ones !! 0%nat = Some 0
    /\ constraints m
       = imap (fun i mono =>
                 (EAdd (EDotMatrix (A' !!! mono) 0%nat)
                    (ESub (EIndex 1%nat (i + 1)) (EIndex 2%nat (i + 1))),
                  C_value mono))
           (non_constant zero dm)
         ++ [(EAdd (EDotMatrix (A' !!! zero) 0%nat) (EVar 3%nat), C_value zero)]
    /\ (forall c, c ∈ constraints m ->
          ~ refers (c.1) 1%nat 0%nat /\ ~ refers (c.1) 2%nat 0%nat)
    /\ (forall i c,
          (i < length (non_constant zero dm))%nat ->
          constraints m !! i = Some c ->
          forall j, (refers (c.1) 1%nat j <-> j = (i + 1)%nat)
                    /\ (refers (c.1) 2%nat j <-> j = (i + 1)%nat))
    /\ (forall c,
          constraints m !! length (non_constant zero dm) = Some c ->
          forall j, ~ refers (c.1) 1%nat j /\ ~ refers (c.1) 2%nat j)
    /\ (forall i j ci cj,
          i ≠ j ->
          constraints m !! i = Some ci -> constraints m !! j = Some cj ->
          forall r, ~ (refers (ci.1) 1%nat r /\ refers (cj.1) 1%nat r)
                    /\ ~ (refers (ci.1) 2%nat r /\ refers (cj.1) 2%nat r))
    /\ (forall nu nu',
          (forall h, psd_value nu h = psd_value nu' h) ->
          (forall h, scalar_value nu h = scalar_value nu' h) ->
          (forall h i, i ≠ 0%nat -> vec_value nu h i = vec_value nu' h i) ->
          (forall c, c ∈ constraints m -> satisfies nu c <-> satisfies nu' c)
          /\ objective_value m nu = objective_value m nu').
Proof.
  intros dm A' zero Hdm HA.
  assert (Hpos : (0 < length dm)%nat) by (rewrite Hdm; cbn; lia).
  set (N := length (non_constant zero dm)).
  set (m := projected_model A' dm zero k verbose true).
  assert (Hloop : forall i c, (i < N)%nat -> constraints m !! i = Some c ->
                    exists mono, c = slack_constraint A' 0%nat (Some (1%nat, 2%nat)) i mono).
  { intros i c Hlt Hc. cbn [constraints projected_model m] in Hc.
    rewrite lookup_app_l in Hc by (rewrite length_imap; exact Hlt).
    rewrite list_lookup_imap in Hc.
    destruct (non_constant zero dm !! i) as [mono |]; [| discriminate].
    injection Hc as <-. exists mono. reflexivity. }
  assert (Hlast : forall c, constraints m !! N = Some c ->
                    c = constant_constraint A' 0%nat 3%nat zero).
  { intros c Hc. cbn [constraints projected_model m] in Hc.
    rewrite lookup_app_r in Hc by (rewrite length_imap; reflexivity).
    rewrite length_imap in Hc. fold N in Hc. rewrite Nat.sub_diag in Hc.
    injection Hc as <-. reflexivity. }
  assert (Hlen : length (constraints m) = S N).
  { cbn [constraints projected_model m]. rewrite length_app, length_imap. cbn. fold N. lia. }
  assert (Hcase : forall i c, constraints m !! i = Some c ->
                    (i < N)%nat
                    /\ (exists mono, c = slack_constraint A' 0%nat (Some (1%nat, 2%nat)) i mono)
                    \/ c = constant_constraint A' 0%nat 3%nat zero).
  { intros i c Hc. pose proof (lookup_lt_Some _ _ _ Hc) as Hlt. rewrite Hlen in Hlt.
    destruct (decide (i < N)%nat) as [Hi | Hi].
    - left. split; [exact Hi | apply (Hloop i c Hi Hc)].
    - right. apply Hlast. replace N with i by lia. exact Hc. }
  exists m, (ones_vector (length dm)).
  split; [apply (projected_solved graph projector verbose true n k rest Hdm HA) |].
  do 2 (split; [reflexivity |]).
  split; [unfold ones_vector; rewrite length_insert, length_replicate; reflexivity |].
  split.
  { unfold ones_vector. apply list_lookup_insert_eq. rewrite length_replicate. exact Hpos. }
  split; [reflexivity |].
  split.
  { intros c Hc. apply list_elem_of_lookup in Hc as [i Hc].
    destruct (Hcase i c Hc) as [[_ [mono ->]] | ->]; cbn; split; intros Hr;
      intuition (try discriminate; try lia). }
  split.
  { intros i c Hlt Hc j. destruct (Hloop i c Hlt Hc) as [mono ->]. cbn.
    split; split; intros Hr; intuition (try discriminate; try lia). }
  split.
  { intros c Hc j. rewrite (Hlast c Hc). cbn.
    split; intros Hr; intuition (try discriminate). }
  split.
  { intros i j ci cj Hne Hci Hcj r.
    destruct (Hcase i ci Hci) as [[Hi [mi ->]] | ->];
      destruct (Hcase j cj Hcj) as [[Hj [mj ->]] | ->]; cbn;
      split; intros [Hr Hr']; intuition (try discriminate; try lia). }
  intros nu nu' Hpsd Hscalar Hvec. split.
  - intros c Hc. apply list_elem_of_lookup in Hc as [i Hc].
    unfold satisfies.
    assert (Heq : eval nu (c.1) = eval nu' (c.1)).
    { destruct (Hcase i c Hc) as [[_ [mono ->]] | ->]; cbn [fst slack_constraint
        constant_constraint eval]; rewrite ?Hpsd, ?Hscalar;
        rewrite ?(Hvec 1%nat (i + 1)%nat), ?(Hvec 2%nat (i + 1)%nat) by lia; reflexivity. }
    rewrite Heq. reflexivity.
  - unfold objective_value. cbn [objective projected_model m].
    rewrite Hdm. cbn [length]. rewrite !slack_objective_value, Hscalar.
    f_equal. apply sum_upto_ext. intros i _.
    rewrite (Hvec 1%nat (i + 1)%nat), (Hvec 2%nat (i + 1)%nat) by lia. reflexivity.
Qed.

(** C5.  With a projector whose [apply_rp_map] is the identity and slack
    disabled, the projected builder sets up the relaxation of the unprojected
    builder, whatever the graph: either both calls stop on the same exception
    before anything is handed to the solver, or each hands one model to the
    solver, and the two models have the same variables, the same objective
    and the same feasible points, hence the same optimal value.  On a graph
    whose list starts with the zero monomial and whose listed matrices are
    square of one order, the second case is the one that happens, and both
    calls return a record as soon as the optimizer does not fail, the solver
    leaves a solution for either model and the diagnostic prints go through.
    Whenever both calls return, the objective in each record is the one the
    solver reports for the model of that call, and the two objectives differ
    by at most twice the accuracy of the solver on these two models: they are
    equal for an exact solver. *)
Theorem identity_projection_equivalent (graph : Graph) (projector : RandomProjector)
    (verbose : bool) :
  (forall a, apply_rp_map projector a = a) ->
  let o1 := second_level_stable_set_problem_sdp graph verbose initial_world in
  let o2 := projected_second_level_stable_set_problem_sdp graph projector verbose false
              initial_world in
  ((exists e, o1.1 = Raised e /\ o2.1 = Raised e /\ solved o1.2 = [] /\ solved o2.2 = [])
   \/ (exists m1 m2,
         solved o1.2 = [m1] /\ solved o2.2 = [m2]
         /\ variables m1 = variables m2
         /\ objective m1 = objective m2
         /\ (forall nu, feasible m1 nu <-> feasible m2 nu)
         /\ (forall nu, objective_value m1 nu = objective_value m2 nu)
         /\ (forall v, optimal_value m1 v <-> optimal_value m2 v)))
  /\ (forall n s rest,
        distinct_monomials_L2 graph = zero_tuple n :: rest ->
        conforming (A_L2 graph) (distinct_monomials_L2 graph) s ->
        exists m1 m2,
          solved o1.2 = [m1] /\ solved o2.2 = [m2]
          /\ (forall v, optimal_value m1 v <-> optimal_value m2 v)
          /\ (forall a1 a2,
                solve_fails m1 = false -> solve_fails m2 = false ->
                solver m1 = Some a1 -> solver m2 = Some a2 ->
                (np_report (A_L2 graph) (length (distinct_monomials_L2 graph))
                   (X_level a1) s (length (constraints m1))).1 = Returned tt ->
                exists sol1 sol2,
                  o1.1 = Returned sol1 /\ o2.1 = Returned sol2
                  /\ sol_objective sol1 = primalObjValue a1
                  /\ sol_objective sol2 = primalObjValue a2))
  /\ (forall sol1 w1 sol2 w2,
        o1 = (Returned sol1, w1) -> o2 = (Returned sol2, w2) ->
        exists m1 m2 a1 a2,
          solved w1 = [m1] /\ solved w2 = [m2]
          /\ solver m1 = Some a1 /\ solver m2 = Some a2
          /\ sol_objective sol1 = primalObjValue a1
          /\ sol_objective sol2 = primalObjValue a2
          /\ (forall v, optimal_value m1 v <-> optimal_value m2 v)
          /\ (forall tol, accurate tol m1 -> accurate tol m2 ->
                Rabs (sol_objective sol1 - sol_objective sol2) <= 2 * tol)).
Proof.
  intros Hid o1 o2. split; [| split].
  - destruct (identity_lockstep graph projector verbose Hid)
      as [Hraise | (m1 & m2 & H1 & H2 & Hv & Ho & Heq)]; [left; exact Hraise | right].
    exists m1, m2.
    split; [exact H1 |]. split; [exact H2 |]. split; [exact Hv |]. split; [exact Ho |].
    split; [intros nu; apply Heq |]. split; [intros nu; apply Heq |].
    apply equivalent_optimal, Heq.
  - intros n s rest Hdm HA.
    assert (HA' : conforming (apply_rp_map projector <$> A_L2 graph)
                    (distinct_monomials_L2 graph) s)
      by (rewrite (fmap_identity _ (A_L2 graph) Hid); exact HA).
    pose proof (second_level_build graph verbose n s rest Hdm HA) as Hb1.
    pose proof (projected_build graph projector verbose false n s rest Hdm HA') as Hb2.
    cbn zeta in Hb1, Hb2. rewrite (fmap_identity _ (A_L2 graph) Hid) in Hb2.
    fold o1 in Hb1. fold o2 in Hb2.
    set (A := A_L2 graph) in *. set (dm := distinct_monomials_L2 graph) in *.
    exists (unprojected_model A dm (zero_tuple n) s verbose),
           (projected_model A dm (zero_tuple n) s verbose false).
    split; [rewrite Hb1, second_level_tail_solved; reflexivity |].
    split; [rewrite Hb2, projected_tail_solved; reflexivity |].
    split; [apply equivalent_optimal, projected_model_equivalent |].
    intros a1 a2 Hf1 Hf2 Hs1 Hs2 Hreport.
    rewrite Hb1, Hb2, second_level_tail_run, projected_tail_run.
    cbn [built session solved ticks stdout app].
    rewrite Hf1, Hf2, Hs1, Hs2.
    cbn [constraints unprojected_model] in Hreport.
    rewrite length_app, length_fmap in Hreport. cbn [length] in Hreport.
    destruct (np_report A (length dm) (X_level a1) s
                (length (non_constant (zero_tuple n) dm) + 1)) as [[[] | e] out];
      [| discriminate Hreport].
    eexists. eexists. repeat split.
  - intros sol1 w1 sol2 w2 Hrun1 Hrun2.
    destruct (second_level_returned graph verbose sol1 w1 Hrun1)
      as (m1 & a1 & Hs1 & Ha1 & Hobj1).
    destruct (projected_returned graph projector verbose false sol2 w2 Hrun2)
      as (m2 & a2 & Hs2 & Ha2 & Hobj2).
    assert (Hopt : forall v, optimal_value m1 v <-> optimal_value m2 v).
    { destruct (identity_lockstep graph projector verbose Hid)
        as [(e & He & _) | (m1' & m2' & H1 & H2 & _ & _ & Heq)].
      - fold o1 in He. rewrite Hrun1 in He. discriminate He.
      - fold o1 in H1. fold o2 in H2. rewrite Hrun1 in H1. rewrite Hrun2 in H2.
        cbn [snd] in H1, H2. rewrite Hs1 in H1. rewrite Hs2 in H2.
        injection H1 as <-. injection H2 as <-.
        apply equivalent_optimal, Heq. }
    exists m1, m2, a1, a2.
    do 6 (split; [assumption |]). split; [exact Hopt |].
    intros tol Hacc1 Hacc2. rewrite Hobj1, Hobj2.
    apply (accurate_close tol m1 m2 a1 a2); assumption.
Qed.

(** C6.  When the monomial list starts with the zero monomial, every listed
    monomial is a key of [A], the matrix of the zero monomial has at least
    one row and the matrix of some listed monomial has a shape different from
    that of the zero monomial, the unprojected builder fails with the
    dimension error of the modelling interface, raised by [Expr.dot] while
    the constraints are assembled, and nothing was handed to the solver. *)
Theorem second_level_shape_mismatch (graph : Graph) (verbose : bool) (n : nat)
    (rest : list monomial) :
  let dm := distinct_monomials_L2 graph in
  let A := A_L2 graph in
  let zero := zero_tuple n in
  dm = zero :: rest ->
  (forall m, m ∈ dm -> is_Some (A !! m)) ->
  (0 < (shape (A !!! zero)).1)%nat ->
  (exists m, m ∈ dm /\ shape (A !!! m) ≠ shape (A !!! zero)) ->
  exists w,
    second_level_stable_set_problem_sdp graph verbose initial_world
    = (Raised DimensionError, w)
    /\ solved w = [].
Proof.
  intros dm A zero Hdm Hkeys _ (bad & Hbad_in & Hbad).
  apply (second_level_mismatch_order graph verbose n (shape (A !!! zero)).1 rest Hdm Hkeys
           eq_refl).
  fold dm A zero.
  destruct (decide (shape (A !!! zero) = ((shape (A !!! zero)).1, (shape (A !!! zero)).1)))
    as [Hsquare | Hnot].
  - exists bad. split; [exact Hbad_in |]. rewrite <- Hsquare. exact Hbad.
  - exists zero. split; [rewrite Hdm; left | exact Hnot].
Qed.

End BuilderClaims.

(** ** The claims on the sample inputs *)

Section SampleClaims.

Local Open Scope R_scope.

Lemma sample_zero_once : zero_tuple 1 ∉ [[1%nat]].
Proof. intros Hin. apply list_elem_of_singleton in Hin. discriminate. Qed.

(** The unprojected builder on the one-vertex sample. *)
Lemma second_level_relaxation_witness :
  conforming (A_L2 Sample.one_vertex) (distinct_monomials_L2 Sample.one_vertex) 2
  /\ exists m,
       solved (second_level_stable_set_problem_sdp (H := Sample.env) Sample.one_vertex
                 false initial_world).2 = [m]
       /\ variables m = [PSDVar 2; ScalarVar]
       /\ objective m = Some (Maximize, EVar 1%nat).
Proof.
  split; [exact one_vertex_conforming |].
  destruct (second_level_relaxation (H := Sample.env) Sample.one_vertex false 1 2
              [[1%nat]] eq_refl one_vertex_conforming)
    as (m & Hs & Hv & Ho & _).
  exists m. split; [exact Hs |]. split; [exact Hv | exact Ho].
Defined.

(** The projected builder with slack on the one-vertex sample. *)
Lemma projected_relaxation_with_slack_witness :
  exists m,
    solved (projected_second_level_stable_set_problem_sdp (H := Sample.env)
              Sample.one_vertex Sample.identity_projector false true
              initial_world).2 = [m]
    /\ variables m = [PSDVar 2; VecVar 2 0; VecVar 2 0; ScalarVar].
Proof.
  destruct (projected_relaxation_with_slack (H := Sample.env) Sample.one_vertex
              Sample.identity_projector false 1 2 [[1%nat]] eq_refl
              (identity_conforming _ _ one_vertex_conforming))
    as (_ & _ & m & Hs & Hv & _).
  exists m. split; [exact Hs | exact Hv].
Defined.

(** Both objectives on the one-vertex sample. *)
Lemma projected_objective_witness :
  exists m_slack m_plain e,
    solved (projected_second_level_stable_set_problem_sdp (H := Sample.env)
              Sample.one_vertex Sample.identity_projector false true
              initial_world).2 = [m_slack]
    /\ solved (projected_second_level_stable_set_problem_sdp (H := Sample.env)
                 Sample.one_vertex Sample.identity_projector false false
                 initial_world).2 = [m_plain]
    /\ objective m_slack = Some (Maximize, e)
    /\ objective m_plain = Some (Maximize, EVar 1%nat).
Proof.
  destruct (projected_objective (H := Sample.env) Sample.one_vertex
              Sample.identity_projector false 1 2 [[1%nat]] eq_refl sample_zero_once
              (identity_conforming _ _ one_vertex_conforming))
    as (ms & mp & e & Hs & Hp & Ho & _ & _ & Hop & _).
  exists ms, mp, e. split; [exact Hs |]. split; [exact Hp |]. split; [exact Ho | exact Hop].
Defined.

(** C3 as stated fails: on the one-vertex sample, at a point whose lower
    slacks are 1, the objective built by the code is [-eps] while the formula
    of the claim gives [+eps]. *)
Lemma projected_objective_sign :
  exists m,
    solved (projected_second_level_stable_set_problem_sdp (H := Sample.env)
              Sample.one_vertex Sample.identity_projector false true initial_world).2 = [m]
    /\ objective_value m Sample.unit_slack
       ≠ SlackSpec.objective_value Sample.unit_slack 1%nat 2%nat 3%nat 1.
Proof.
  eexists. split.
  - apply (projected_solved (H := Sample.env) Sample.one_vertex Sample.identity_projector
             false true 1 2 [[1%nat]] eq_refl (identity_conforming _ _ one_vertex_conforming)).
  - unfold objective_value, SlackSpec.objective_value.
    cbn [objective projected_model]. cbn.
    unfold dual_lower_bound, dual_upper_bound, epsilon. lra.
Qed.

(** The slack vectors on the one-vertex sample. *)
Lemma slack_positions_witness :
  exists m ones,
    solved (projected_second_level_stable_set_problem_sdp (H := Sample.env)
              Sample.one_vertex Sample.identity_projector false true
              initial_world).2 = [m]
    /\ variables m !! 1%nat = Some (VecVar 2 0)
    /\ variables m !! 2%nat = Some (VecVar 2 0)
    /\ length ones = 2%nat
    /\ ones !! 0%nat = Some 0.
Proof.
  destruct (slack_positions (H := Sample.env) Sample.one_vertex
              Sample.identity_projector false 1 2 [[1%nat]] eq_refl
              (identity_conforming _ _ one_vertex_conforming))
    as (m & ones & Hs & Hv & _ & Hlen & H0 & _).
  exists m, ones. split; [exact Hs |].
  split; [rewrite Hv; reflexivity |]. split; [rewrite Hv; reflexivity |].
  split; [exact Hlen | exact H0].
Defined.

(** The two builders with the identity projector: the models on the
    one-vertex sample, the returned objectives on the sample of order 1 with
    the exact solver. *)
Lemma identity_projection_equivalent_witness :
  (exists m1 m2,
     solved (second_level_stable_set_problem_sdp (H := Sample.env) Sample.one_vertex false
               initial_world).2 = [m1]
     /\ solved (projected_second_level_stable_set_problem_sdp (H := Sample.env)
                  Sample.one_vertex Sample.identity_projector false false
                  initial_world).2 = [m2]
     /\ (forall v, optimal_value m1 v <-> optimal_value m2 v))
  /\ (exists sol1 w1 sol2 w2,
        second_level_stable_set_problem_sdp (H := Sample.exact_env) Sample.unit_order false
          initial_world = (Returned sol1, w1)
        /\ projected_second_level_stable_set_problem_sdp (H := Sample.exact_env)
             Sample.unit_order Sample.identity_projector false false initial_world
           = (Returned sol2, w2)
        /\ Rabs (sol_objective sol1 - sol_objective sol2) <= 2 * 0).
Proof.
  split.
  - destruct (identity_projection_equivalent (H := Sample.env) Sample.one_vertex
                Sample.identity_projector false (fun a => eq_refl))
      as (_ & Hwf & _).
    destruct (Hwf 1%nat 2%nat [[1%nat]] eq_refl one_vertex_conforming)
      as (m1 & m2 & H1 & H2 & Hopt & _).
    exists m1, m2. split; [exact H1 |]. split; [exact H2 | exact Hopt].
  - destruct unit_order_returns as (sol1 & w1 & sol2 & w2 & Hrun1 & Hrun2 & Hs1 & Hs2).
    exists sol1, w1, sol2, w2. split; [exact Hrun1 |]. split; [exact Hrun2 |].
    destruct (identity_projection_equivalent (H := Sample.exact_env) Sample.unit_order
                Sample.identity_projector false (fun a => eq_refl))
      as (_ & _ & Hret).
    destruct (Hret sol1 w1 sol2 w2 Hrun1 Hrun2)
      as (m1 & m2 & a1 & a2 & Hm1 & Hm2 & _ & _ & _ & _ & _ & Hclose).
    rewrite Hs1 in Hm1. rewrite Hs2 in Hm2. injection Hm1 as <-. injection Hm2 as <-.
    apply Hclose; apply exact_env_accurate.
    + apply unit_order_optimal.
    + apply (equivalent_optimal _ _ (projected_model_equivalent _ _ _ _ _)).
      apply unit_order_optimal.
Defined.

(** The unprojected builder on the sample whose matrix of [x] is 3 x 3. *)
Lemma second_level_shape_mismatch_witness :
  exists w,
    second_level_stable_set_problem_sdp (H := Sample.env) Sample.mismatched false
      initial_world
    = (Raised DimensionError, w)
    /\ solved w = [].
Proof.
  apply (second_level_shape_mismatch (H := Sample.env) Sample.mismatched false 1
           [[1%nat]] eq_refl mismatched_keys).
  - change (0 < (shape (A_L2 Sample.mismatched !!! [0%nat])).1)%nat.
    rewrite mismatched_total0. cbn. lia.
  - exists [1%nat]. split.
    + right. left.
    + change (shape (A_L2 Sample.mismatched !!! [1%nat])
              ≠ shape (A_L2 Sample.mismatched !!! [0%nat])).
      rewrite mismatched_total0, mismatched_total1. discriminate.
Defined.

(** C9: the record returned by the projected builder.  On the one-vertex
    sample with slack enabled the builder returns, its model holds one
    constraint for the non-constant monomial and one for the constant, and
    the field [no_linear_variables] of the record is the string "TBC", not an
    integer. *)
Theorem no_linear_variables_placeholder :
  exists sol w m,
    projected_second_level_stable_set_problem_sdp (H := Sample.env)
      Sample.one_vertex Sample.identity_projector false true initial_world
    = (Returned sol, w)
    /\ solved w = [m]
    /\ length (constraints m) = 2%nat
    /\ sol_no_linear_variables sol = PyStr "TBC"
    /\ forall z, sol_no_linear_variables sol ≠ PyInt z.
Proof.
  rewrite (projected_build (H := Sample.env) Sample.one_vertex Sample.identity_projector
             false true 1 2 [[1%nat]] eq_refl
             (identity_conforming _ _ one_vertex_conforming)).
  rewrite projected_tail_run.
  eexists. eexists. eexists.
  split; [reflexivity |]. split; [reflexivity |].
  split; [reflexivity |]. split; [reflexivity |]. intros z; discriminate.
Qed.

End SampleClaims.

(** * Beyond the claims *)

(** ** Which inputs reach the solver *)

Section ReachTheorems.

Context `{Environment}.

Local Open Scope R_scope.

Lemma stops_not_solved {V : Type} (o : py_result V * world) (m : model) :
  stops o -> solved o.2 = [m] -> False.
Proof. intros [_ Hs] Hm. rewrite Hs in Hm. discriminate Hm. Qed.

(** X1.  On inputs whose first matrix, if any, has at least one row, the
    unprojected builder hands a model to the solver exactly when its input
    is well formed: the list is not empty, it holds the all-zero tuple of the
    length of its first monomial, and every listed monomial has a matrix in
    [A], all square of one order.  On every other such input it raises with
    nothing handed to the solver. *)
Theorem second_level_reaches_solver (graph : Graph) (verbose : bool) :
  let o := second_level_stable_set_problem_sdp graph verbose initial_world in
  let wf := well_formed (A_L2 graph) (distinct_monomials_L2 graph) in
  positive_order (A_L2 graph) (distinct_monomials_L2 graph) ->
  ((exists m, solved o.2 = [m]) <-> wf)
  /\ ((exists e, o.1 = Raised e) /\ solved o.2 = [] <-> ~ wf).
Proof.
  intros o wf _.
  assert (Hreach : wf -> exists m, solved o.2 = [m]).
  { intros (m0 & s & Hhead & Hzero & HA). eexists. unfold o.
    rewrite (second_level_build_any graph verbose m0 s Hhead Hzero HA).
    rewrite second_level_tail_solved. reflexivity. }
  pose proof (second_level_stops_or_well_formed graph verbose) as Hcases. fold o wf in Hcases.
  split; split.
  - intros [m Hm]. destruct Hcases as [Hstop | Hwf]; [| exact Hwf].
    destruct (stops_not_solved o m Hstop Hm).
  - exact Hreach.
  - intros Hstop Hwf. destruct (Hreach Hwf) as [m Hm].
    exact (stops_not_solved o m Hstop Hm).
  - intros Hnot. destruct Hcases as [Hstop | Hwf]; [exact Hstop | contradiction].
Qed.

(** X2.  On inputs whose first projected matrix, if any, has at least one
    row, the projected builder, with or without slack, hands a model to the
    solver exactly when the projected input is well formed: the list is not
    empty, it holds the all-zero tuple of the length of its first monomial,
    and the projected matrices of the listed monomials exist and are all
    square of one order.  On every other such input it raises with nothing
    handed to the solver. *)
Theorem projected_reaches_solver (graph : Graph) (projector : RandomProjector)
    (verbose slack : bool) :
  let o := projected_second_level_stable_set_problem_sdp graph projector verbose slack
             initial_world in
  let wf := well_formed (apply_rp_map projector <$> A_L2 graph)
              (distinct_monomials_L2 graph) in
  positive_order (apply_rp_map projector <$> A_L2 graph) (distinct_monomials_L2 graph) ->
  ((exists m, solved o.2 = [m]) <-> wf)
  /\ ((exists e, o.1 = Raised e) /\ solved o.2 = [] <-> ~ wf).
Proof.
  intros o wf _.
  assert (Hreach : wf -> exists m, solved o.2 = [m]).
  { intros (m0 & s & Hhead & Hzero & HA). eexists. unfold o.
    rewrite (projected_build_any graph projector verbose slack m0 s Hhead Hzero HA).
    rewrite projected_tail_solved. reflexivity. }
  pose proof (projected_stops_or_well_formed graph projector verbose slack) as Hcases.
  fold o wf in Hcases.
  split; split.
  - intros [m Hm]. destruct Hcases as [Hstop | Hwf]; [| exact Hwf].
    destruct (stops_not_solved o m Hstop Hm).
  - exact Hreach.
  - intros Hstop Hwf. destruct (Hreach Hwf) as [m Hm].
    exact (stops_not_solved o m Hstop Hm).
  - intros Hnot. destruct Hcases as [Hstop | Hwf]; [exact Hstop | contradiction].
Qed.

(** X3.  On an empty monomial list both builders raise [IndexError] at once:
    the clock was read once, no variable was created and nothing was handed
    to the solver. *)
Theorem empty_list_raises (graph : Graph) (projector : RandomProjector)
    (verbose slack : bool) :
  distinct_monomials_L2 graph = [] ->
  let stopped := {| session := Fusion.empty; solved := []; ticks := 1; stdout := [] |} in
  second_level_stable_set_problem_sdp graph verbose initial_world
  = (Raised IndexError, stopped)
  /\ projected_second_level_stable_set_problem_sdp graph projector verbose slack
       initial_world
     = (Raised IndexError, stopped).
Proof.
  intros Hdm stopped.
  unfold second_level_stable_set_problem_sdp, projected_second_level_stable_set_problem_sdp.
  rewrite Hdm. split; reflexivity.
Qed.

(** X4.  When the first listed monomial has no matrix in [A] both builders
    raise [KeyError] before any variable is created. *)
Theorem first_matrix_missing (graph : Graph) (projector : RandomProjector)
    (verbose slack : bool) (m0 : monomial) :
  distinct_monomials_L2 graph !! 0%nat = Some m0 ->
  A_L2 graph !! m0 = None ->
  let stopped := {| session := Fusion.empty; solved := []; ticks := 1; stdout := [] |} in
  second_level_stable_set_problem_sdp graph verbose initial_world
  = (Raised KeyError, stopped)
  /\ projected_second_level_stable_set_problem_sdp graph projector verbose slack
       initial_world
     = (Raised KeyError, stopped).
Proof.
  intros Hhead Hnone stopped.
  assert (Hnone' : (apply_rp_map projector <$> A_L2 graph) !! m0 = None)
    by (rewrite lookup_fmap, Hnone; reflexivity).
  unfold second_level_stable_set_problem_sdp, projected_second_level_stable_set_problem_sdp.
  split.
  - step ltac:(reflexivity).
    step ltac:(apply list_getitem_Some; exact Hhead).
    erewrite bind_raised by (apply dict_getitem_None; exact Hnone). reflexivity.
  - step ltac:(reflexivity).
    step ltac:(apply list_getitem_Some; exact Hhead).
    erewrite bind_raised by (apply dict_getitem_None; exact Hnone'). reflexivity.
Qed.

(** X5.  Without slack the projected builder is the unprojected builder run
    on the projected matrices: on every graph and projector the two calls
    either stop on the same exception before the solver, or hand over models
    with the same variables, objective and feasible points, hence the same
    optimal value. *)
Theorem projection_then_build (graph : Graph) (projector : RandomProjector)
    (verbose : bool) :
  let o1 := second_level_stable_set_problem_sdp (projected_graph projector graph) verbose
              initial_world in
  let o2 := projected_second_level_stable_set_problem_sdp graph projector verbose false
              initial_world in
  (exists e, o1.1 = Raised e /\ o2.1 = Raised e /\ solved o1.2 = [] /\ solved o2.2 = [])
  \/ (exists m1 m2,
        solved o1.2 = [m1] /\ solved o2.2 = [m2]
        /\ variables m1 = variables m2
        /\ objective m1 = objective m2
        /\ (forall nu, feasible m1 nu <-> feasible m2 nu)
        /\ (forall nu, objective_value m1 nu = objective_value m2 nu)
        /\ (forall v, optimal_value m1 v <-> optimal_value m2 v)).
Proof.
  intros o1 o2.
  assert (Hsame : projected_second_level_stable_set_problem_sdp graph projector verbose false
                  = projected_second_level_stable_set_problem_sdp
                      (projected_graph projector graph) Sample.identity_projector
                      verbose false).
  { unfold projected_second_level_stable_set_problem_sdp.
    cbn [distinct_monomials_L2 A_L2 projected_graph].
    rewrite (fmap_identity (apply_rp_map Sample.identity_projector)
               (apply_rp_map projector <$> A_L2 graph) (fun a => eq_refl)).
    reflexivity. }
  destruct (identity_lockstep (projected_graph projector graph) Sample.identity_projector
              verbose (fun a => eq_refl))
    as [Hraise | (m1 & m2 & H1 & H2 & Hv & Ho & Heq)].
  - left. unfold o1, o2. rewrite Hsame. exact Hraise.
  - right. exists m1, m2. unfold o1, o2. rewrite Hsame.
    split; [exact H1 |]. split; [exact H2 |]. split; [exact Hv |]. split; [exact Ho |].
    split; [intros nu; apply Heq |]. split; [intros nu; apply Heq |].
    apply equivalent_optimal, Heq.
Qed.

End ReachTheorems.

(** ** What the builders return *)

Section Outcomes.

Context `{Environment}.

Local Open Scope R_scope.

(** X6.  On a well-formed input of positive order the outcome of the
    unprojected builder is decided by the solver and by the diagnostic
    prints.  The model built is handed to the solver; with [verbose] the
    solver's log is written on standard output first.  If the optimizer
    fails, [M.solve()] raises and the second clock reading of the solve is
    never taken; if the solver left no solution the call raises
    [SolutionError]; if the prints raise, their exception replaces the
    result; otherwise the record carries the solver's [X], [b] and objective
    for the model built, the time between the two clock readings around
    [M.solve()] (the building of the model is not timed), the order of [X]
    and the string "TBC", and the diagnostic lines follow the log. *)
Theorem second_level_outcome (graph : Graph) (verbose : bool) (m0 : monomial) (s : nat) :
  let dm := distinct_monomials_L2 graph in
  let A := A_L2 graph in
  let zero := zero_tuple (length m0) in
  let m := unprojected_model A dm zero s verbose in
  let log := if verbose then solver_log m else [] in
  dm !! 0%nat = Some m0 ->
  zero ∈ dm ->
  conforming A dm s ->
  (0 < s)%nat ->
  second_level_stable_set_problem_sdp graph verbose initial_world
  = if solve_fails m then (Raised OptimizeError, solved_world m 3 log)
    else
      match solver m with
      | None => (Raised SolutionError, solved_world m 4 log)
      | Some ans =>
          match np_report A (length dm) (X_level ans) s
                  (length (non_constant zero dm) + 1) with
          | (Returned _, out) =>
              (Returned {| sol_X := X_level ans; sol_b := b_level ans;
                           sol_objective := primalObjValue ans;
                           sol_computation_time := clock 3 - clock 2;
                           sol_size_psd_variable := s;
                           sol_no_linear_variables := PyStr "TBC" |},
               solved_world m 4 (log ++ out))
          | (Raised e, out) => (Raised e, solved_world m 4 (log ++ out))
          end
      end.
Proof.
  intros dm A zero m log Hhead Hzero HA _. unfold log, dm, A, zero, m.
  rewrite (second_level_build_any graph verbose m0 s Hhead Hzero HA).
  rewrite second_level_tail_run.
  cbn [built session solved ticks stdout app solver_output log_handler unprojected_model].
  unfold solved_world. rewrite app_nil_r. reflexivity.
Qed.

(** X7.  On a well-formed input of positive order the projected builder
    prints nothing of its own: standard output holds the solver's log when
    [verbose] is set and nothing otherwise.  The call raises from [M.solve()]
    if the optimizer fails, raises [SolutionError] if the solver left no
    solution, and otherwise returns the solver's [X], [b] and objective for
    the model built, the time between the two clock readings around
    [M.solve()], the order [k] of the projected matrices and the string
    "TBC", with slack or without. *)
Theorem projected_outcome (graph : Graph) (projector : RandomProjector)
    (verbose slack : bool) (m0 : monomial) (k : nat) :
  let dm := distinct_monomials_L2 graph in
  let A' := apply_rp_map projector <$> A_L2 graph in
  let zero := zero_tuple (length m0) in
  let m := projected_model A' dm zero k verbose slack in
  let log := if verbose then solver_log m else [] in
  dm !! 0%nat = Some m0 ->
  zero ∈ dm ->
  conforming A' dm k ->
  (0 < k)%nat ->
  projected_second_level_stable_set_problem_sdp graph projector verbose slack initial_world
  = if solve_fails m then (Raised OptimizeError, solved_world m 3 log)
    else
      (match solver m with
       | None => Raised SolutionError
       | Some ans =>
           Returned {| sol_X := X_level ans; sol_b := b_level ans;
                       sol_objective := primalObjValue ans;
                       sol_computation_time := clock 3 - clock 2;
                       sol_size_psd_variable := k;
                       sol_no_linear_variables := PyStr "TBC" |}
       end,
       solved_world m 4 log).
Proof.
  intros dm A' zero m log Hhead Hzero HA _. unfold log, dm, A', zero, m.
  rewrite (projected_build_any graph projector verbose slack m0 k Hhead Hzero HA).
  rewrite projected_tail_run.
  cbn [built session solved ticks stdout app solver_output log_handler projected_model].
  reflexivity.
Qed.

Lemma dot_vector_zero (i : nat) (w : list R) : dot_vector (fun _ => 0) i w = 0.
Proof. revert i. induction w as [| c w IH]; intros i; cbn; [reflexivity |]. rewrite IH. lra. Qed.

Lemma without_slack_feasible (A : gmap monomial ndarray) (dm : list monomial)
    (zero : monomial) (k : nat) (verbose : bool) (nu : valuation) :
  feasible (projected_model A dm zero k verbose false) nu ->
  feasible (projected_model A dm zero k verbose true) (without_slack nu)
  /\ objective_value (projected_model A dm zero k verbose true) (without_slack nu)
     = objective_value (projected_model A dm zero k verbose false) nu.
Proof.
  intros [Hvars Hcs]. cbn [variables constraints projected_model] in Hvars, Hcs.
  apply Forall_app in Hcs as [Hloop Hconst].
  split; [split |].
  - intros h d Hh. cbn [variables projected_model] in Hh.
    destruct h as [| [| [| [| h]]]]; cbn in Hh; try discriminate;
      injection Hh as <-; cbn [in_domain without_slack vec_value psd_value].
    + apply (Hvars 0%nat (PSDVar k) eq_refl).
    + intros i _. lra.
    + intros i _. lra.
    + exact I.
  - cbn [constraints projected_model]. apply Forall_app. split.
    + rewrite Forall_lookup in Hloop. apply Forall_lookup. intros i c Hi.
      rewrite list_lookup_imap in Hi.
      destruct (non_constant zero dm !! i) as [mono |] eqn:Hm; [| discriminate].
      injection Hi as <-.
      specialize (Hloop i (slack_constraint A 0%nat None i mono)).
      rewrite list_lookup_imap, Hm in Hloop. specialize (Hloop eq_refl).
      apply satisfies_no_slack in Hloop.
      apply (satisfies_slack (without_slack nu) A 0%nat 1%nat 2%nat i mono).
      cbn [without_slack psd_value vec_value]. lra.
    + rewrite Forall_singleton in Hconst. rewrite Forall_singleton.
      apply satisfies_constant in Hconst. apply satisfies_constant.
      cbn [without_slack psd_value scalar_value]. exact Hconst.
  - unfold objective_value. cbn [objective projected_model].
    unfold slack_objective. cbn [eval without_slack vec_value scalar_value].
    rewrite !dot_vector_zero. lra.
Qed.

(** X8.  Slack only relaxes the projected problem.  On a well-formed input
    every feasible point of the model built without slack is, with all
    slacks at 0, a feasible point of the model built with slack, with the
    same objective value; so the optimal value with slack is at least the
    optimal value without. *)
Theorem slack_relaxes (graph : Graph) (projector : RandomProjector)
    (verbose : bool) (m0 : monomial) (k : nat) :
  let dm := distinct_monomials_L2 graph in
  let A' := apply_rp_map projector <$> A_L2 graph in
  let zero := zero_tuple (length m0) in
  dm !! 0%nat = Some m0 ->
  zero ∈ dm ->
  conforming A' dm k ->
  exists m_plain m_slack,
    solved (projected_second_level_stable_set_problem_sdp graph projector verbose false
              initial_world).2 = [m_plain]
    /\ solved (projected_second_level_stable_set_problem_sdp graph projector verbose true
                 initial_world).2 = [m_slack]
    /\ (forall nu, feasible m_plain nu ->
          feasible m_slack (without_slack nu)
          /\ objective_value m_slack (without_slack nu) = objective_value m_plain nu)
    /\ (forall v_plain v_slack,
          optimal_value m_plain v_plain -> optimal_value m_slack v_slack ->
          v_plain <= v_slack).
Proof.
  intros dm A' zero Hhead Hzero HA.
  exists (projected_model A' dm zero k verbose false),
         (projected_model A' dm zero k verbose true).
  split.
  { unfold dm, A', zero.
    rewrite (projected_build_any graph projector verbose false m0 k Hhead Hzero HA).
    rewrite projected_tail_solved. reflexivity. }
  split.
  { unfold dm, A', zero.
    rewrite (projected_build_any graph projector verbose true m0 k Hhead Hzero HA).
    rewrite projected_tail_solved. reflexivity. }
  split; [intros nu; apply without_slack_feasible |].
  intros v_plain v_slack [_ Hleast] [Hub _]. apply Hleast. intros nu Hf.
  destruct (without_slack_feasible A' dm zero k verbose nu Hf) as [Hf' <-].
  apply Hub, Hf'.
Qed.

(** X9.  Each builder adds one constraint per listed entry other than the
    zero monomial, repetitions included, and one for the constant; on a list
    that starts with the zero monomial and does not repeat it, that is one
    constraint per entry of the list. *)
Theorem one_constraint_per_monomial (graph : Graph) (projector : RandomProjector)
    (verbose slack : bool) (n s k : nat) (rest : list monomial) :
  let dm := distinct_monomials_L2 graph in
  let zero := zero_tuple n in
  dm = zero :: rest ->
  zero ∉ rest ->
  conforming (A_L2 graph) dm s ->
  conforming (apply_rp_map projector <$> A_L2 graph) dm k ->
  exists m1 m2,
    solved (second_level_stable_set_problem_sdp graph verbose initial_world).2 = [m1]
    /\ solved (projected_second_level_stable_set_problem_sdp graph projector verbose slack
                 initial_world).2 = [m2]
    /\ length (constraints m1) = length dm
    /\ length (constraints m2) = length dm.
Proof.
  intros dm zero Hdm Hnot HA HA'.
  exists (unprojected_model (A_L2 graph) dm zero s verbose),
         (projected_model (apply_rp_map projector <$> A_L2 graph) dm zero k verbose slack).
  split.
  { unfold dm, zero. rewrite (second_level_build graph verbose n s rest Hdm HA).
    rewrite second_level_tail_solved. reflexivity. }
  split; [apply (projected_solved graph projector verbose slack n k rest Hdm HA') |].
  cbn [constraints unprojected_model projected_model].
  rewrite !length_app, length_fmap, length_imap, Hdm, (non_constant_all zero rest Hnot).
  cbn [length]. split; lia.
Qed.

(** X10.  The flag [verbose] only sets the log handler: on a well-formed
    input the models handed to the solver with and without it have the same
    variables, objective and constraints, and their log handler is the
    flag. *)
Theorem verbose_sets_log_handler (graph : Graph) (projector : RandomProjector)
    (slack : bool) (m0 : monomial) (s k : nat) :
  let dm := distinct_monomials_L2 graph in
  let zero := zero_tuple (length m0) in
  dm !! 0%nat = Some m0 ->
  zero ∈ dm ->
  conforming (A_L2 graph) dm s ->
  conforming (apply_rp_map projector <$> A_L2 graph) dm k ->
  forall verbose, exists m1 m2 q1 q2,
    solved (second_level_stable_set_problem_sdp graph verbose initial_world).2 = [m1]
    /\ solved (second_level_stable_set_problem_sdp graph false initial_world).2 = [q1]
    /\ solved (projected_second_level_stable_set_problem_sdp graph projector verbose slack
                 initial_world).2 = [m2]
    /\ solved (projected_second_level_stable_set_problem_sdp graph projector false slack
                 initial_world).2 = [q2]
    /\ log_handler m1 = verbose /\ log_handler m2 = verbose
    /\ variables m1 = variables q1 /\ objective m1 = objective q1
    /\ constraints m1 = constraints q1
    /\ variables m2 = variables q2 /\ objective m2 = objective q2
    /\ constraints m2 = constraints q2.
Proof.
  intros dm zero Hhead Hzero HA HA' verbose.
  exists (unprojected_model (A_L2 graph) dm zero s verbose),
         (projected_model (apply_rp_map projector <$> A_L2 graph) dm zero k verbose slack),
         (unprojected_model (A_L2 graph) dm zero s false),
         (projected_model (apply_rp_map projector <$> A_L2 graph) dm zero k false slack).
  unfold dm, zero.
  rewrite !(second_level_build_any graph _ m0 s Hhead Hzero HA).
  rewrite !(projected_build_any graph projector _ slack m0 k Hhead Hzero HA').
  rewrite !second_level_tail_solved, !projected_tail_solved.
  repeat split; reflexivity.
Qed.

(** X11.  The dict [C] has a key for exactly the listed monomials, whatever
    their order and repetitions, and maps each to -1 when its exponents sum
    to 1 and to 0 otherwise. *)
Theorem C_dict_keys (dm : list monomial) (m : monomial) (v : R) :
  C_dict dm !! m = Some v
  <-> m ∈ dm /\ v = (if decide (sum_list m = 1%nat) then -1 else 0).
Proof.
  unfold C_dict. rewrite C_dict_fold.
  destruct (decide (m ∈ dm)) as [Hin | Hin].
  - split.
    + intros Heq. injection Heq as <-. split; [exact Hin | reflexivity].
    + intros [_ ->]. reflexivity.
  - rewrite lookup_empty. split; [discriminate | tauto].
Qed.

End Outcomes.

(** ** More on the dimension bound *)

Section BoundExtras.

Local Open Scope R_scope.

Lemma np_log_zero : Bound.np_log 0 = NegInf.
Proof.
  unfold Bound.np_log. destruct (Rlt_dec 0 0) as [Hlt | _]; [lra |].
  destruct (Req_dec_T 0 0) as [_ | Hne]; [reflexivity | contradiction].
Qed.

Lemma np_log_negative (x : R) : x < 0 -> Bound.np_log x = NaN.
Proof.
  intros Hx. unfold Bound.np_log. destruct (Rlt_dec 0 x) as [Hlt | _]; [lra |].
  destruct (Req_dec_T x 0) as [Heq | _]; [lra | reflexivity].
Qed.

Lemma np_mul_neg_inf (y : R) : 0 < y -> Bound.np_mul NegInf y = NegInf.
Proof. intros Hy. cbn. destruct (Rlt_dec 0 y); [reflexivity | contradiction]. Qed.

Lemma quotient_negative (a p : R) :
  (0 < a /\ p < 0) \/ (a < 0 /\ 0 < p) -> a / p < 0.
Proof.
  intros [[Ha Hp] | [Ha Hp]]; unfold Rdiv.
  - assert (/ p < 0) by (apply Rinv_lt_0_compat; exact Hp). nra.
  - assert (0 < / p) by (apply Rinv_0_lt_compat; exact Hp). nra.
Qed.

(** X12.  The degenerate calls of [projected_dimension] that raise nothing.
    For an epsilon of [-1, 1] and a total 8 * rank_solution + sum ranks_Ai of
    magnitude at most 1e300, the call returns [None] after printing one line,
    which carries [-inf] when the total is 0 and the probability is not, and
    [nan] when the total and the probability have opposite signs. *)
Theorem projected_dimension_degenerate (epsilon probability : R) (ranks_Ai : list Z)
    (rank_solution : Z) :
  let total := Bound.sum_ranks ranks_Ai rank_solution in
  let call := Bound.projected_dimension epsilon probability ranks_Ai rank_solution in
  Rabs epsilon <= 1 ->
  (Z.abs total <= 10 ^ 300)%Z ->
  (probability <> 0 -> total = 0%Z ->
   call = (Returned PyNone, [Bound.DimensionLine NegInf]))
  /\ ((0 < IZR total /\ probability < 0) \/ (IZR total < 0 /\ 0 < probability) ->
      call = (Returned PyNone, [Bound.DimensionLine NaN])).
Proof.
  intros total call _ _. split.
  - intros Hp Ht. unfold call. rewrite projected_dimension_nonzero by exact Hp.
    fold total. rewrite Ht. unfold Rdiv. rewrite Rmult_0_l, np_log_zero.
    rewrite np_mul_neg_inf by apply epsilon_part_pos. reflexivity.
  - intros Hsigns.
    assert (Hp : probability <> 0) by (destruct Hsigns as [[_ Hp] | [_ Hp]]; lra).
    unfold call. rewrite projected_dimension_nonzero by exact Hp. fold total.
    rewrite np_log_negative by (apply quotient_negative; exact Hsigns). reflexivity.
Qed.

(** No ranks at all, and a negative probability. *)
Lemma projected_dimension_degenerate_witness :
  Bound.projected_dimension (5 / 100) (8 / 10) [] 0
  = (Returned PyNone, [Bound.DimensionLine NegInf])
  /\ Bound.projected_dimension (5 / 100) (-1) [6%Z] 1
     = (Returned PyNone, [Bound.DimensionLine NaN]).
Proof.
  assert (He : Rabs (5 / 100) <= 1) by (apply Rabs_le; lra).
  split.
  - apply (projected_dimension_degenerate (5 / 100) (8 / 10) [] 0 He);
      [apply Z.leb_le; vm_compute; reflexivity | lra | reflexivity].
  - apply (projected_dimension_degenerate (5 / 100) (-1) [6%Z] 1 He);
      [apply Z.leb_le; vm_compute; reflexivity |].
    left. change (Bound.sum_ranks [6%Z] 1) with 14%Z. lra.
Defined.



Lemma py_sum_permutation (l l' : list Z) :
  Permutation l l' -> Bound.py_sum l = Bound.py_sum l'.
Proof.
  intros Hp. rewrite !py_sum_fold_right.
  induction Hp; cbn; lia.
Qed.

(** X15.  The call depends on [ranks_Ai] through its sum only: listing the
    ranks in another order changes neither what is raised nor what is
    printed. *)
Theorem projected_dimension_order_free (epsilon probability : R)
    (ranks_Ai ranks_Ai' : list Z) (rank_solution : Z) :
  Permutation ranks_Ai ranks_Ai' ->
  Bound.projected_dimension epsilon probability ranks_Ai rank_solution
  = Bound.projected_dimension epsilon probability ranks_Ai' rank_solution.
Proof.
  intros Hp. unfold Bound.projected_dimension, Bound.sum_ranks.
  rewrite (py_sum_permutation _ _ Hp). reflexivity.
Qed.

(** The ranks 2, 6 and the ranks 6, 2. *)
Lemma projected_dimension_order_free_witness :
  Bound.projected_dimension (5 / 100) (8 / 10) [2%Z; 6%Z] 66
  = Bound.projected_dimension (5 / 100) (8 / 10) [6%Z; 2%Z] 66.
Proof.
  apply (projected_dimension_order_free (5 / 100) (8 / 10) [2%Z; 6%Z] [6%Z; 2%Z] 66).
  apply perm_swap.
Defined.

End BoundExtras.

(** ** The sample inputs again *)

Section SampleOutcomes.

Local Open Scope R_scope.

Lemma one_vertex_zero_listed :
  zero_tuple (length [0%nat]) ∈ distinct_monomials_L2 Sample.one_vertex.
Proof. left. Qed.

Lemma one_vertex_positive_order :
  positive_order (A_L2 Sample.one_vertex) (distinct_monomials_L2 Sample.one_vertex).
Proof.
  intros m0 a0 Hhead Ha. injection Hhead as <-.
  pose proof (eq_trans (eq_sym Ha) one_vertex_lookup0) as Heq.
  injection Heq as ->. cbn. lia.
Qed.

Lemma no_monomials_positive_order (A : gmap monomial ndarray) : positive_order A [].
Proof. intros m0 a0 Hhead. discriminate Hhead. Qed.

Lemma one_vertex_well_formed :
  well_formed (A_L2 Sample.one_vertex) (distinct_monomials_L2 Sample.one_vertex).
Proof.
  exists [0%nat], 2%nat.
  split; [reflexivity |]. split; [exact one_vertex_zero_listed | exact one_vertex_conforming].
Qed.

(** The one-vertex sample reaches the solver, the graph without monomials
    does not. *)
Lemma second_level_reaches_solver_witness :
  (exists m,
     solved (second_level_stable_set_problem_sdp (H := Sample.env) Sample.one_vertex false
               initial_world).2 = [m])
  /\ ~ (exists m,
          solved (second_level_stable_set_problem_sdp (H := Sample.env)
                    Degenerate.no_monomials false initial_world).2 = [m]).
Proof.
  split.
  - apply (second_level_reaches_solver (H := Sample.env) Sample.one_vertex false
             one_vertex_positive_order).
    exact one_vertex_well_formed.
  - intros Hm.
    apply (second_level_reaches_solver (H := Sample.env) Degenerate.no_monomials false
             (no_monomials_positive_order _)) in Hm.
    destruct Hm as (m0 & s & Hhead & _). discriminate Hhead.
Defined.

(** The same with the identity projector and slack. *)
Lemma projected_reaches_solver_witness :
  (exists m,
     solved (projected_second_level_stable_set_problem_sdp (H := Sample.env)
               Sample.one_vertex Sample.identity_projector false true
               initial_world).2 = [m])
  /\ ~ (exists m,
          solved (projected_second_level_stable_set_problem_sdp (H := Sample.env)
                    Degenerate.no_monomials Sample.identity_projector false true
                    initial_world).2 = [m]).
Proof.
  assert (Hid : apply_rp_map Sample.identity_projector <$> A_L2 Sample.one_vertex
                = A_L2 Sample.one_vertex)
    by (apply fmap_identity; reflexivity).
  split.
  - apply (projected_reaches_solver (H := Sample.env) Sample.one_vertex
             Sample.identity_projector false true).
    + rewrite Hid. exact one_vertex_positive_order.
    + rewrite Hid. exact one_vertex_well_formed.
  - intros Hm.
    apply (projected_reaches_solver (H := Sample.env) Degenerate.no_monomials
             Sample.identity_projector false true (no_monomials_positive_order _)) in Hm.
    destruct Hm as (m0 & s & Hhead & _). discriminate Hhead.
Defined.

(** The graph without monomials. *)
Lemma empty_list_raises_witness :
  second_level_stable_set_problem_sdp (H := Sample.env) Degenerate.no_monomials false
    initial_world
  = (Raised IndexError,
     {| session := Fusion.empty; solved := []; ticks := 1; stdout := [] |})
  /\ projected_second_level_stable_set_problem_sdp (H := Sample.env)
       Degenerate.no_monomials Sample.identity_projector false true initial_world
     = (Raised IndexError,
        {| session := Fusion.empty; solved := []; ticks := 1; stdout := [] |}).
Proof.
  apply (empty_list_raises (H := Sample.env) Degenerate.no_monomials
           Sample.identity_projector false true eq_refl).
Defined.

(** The graph whose only monomial has no matrix. *)
Lemma first_matrix_missing_witness :
  second_level_stable_set_problem_sdp (H := Sample.env) Degenerate.no_matrix false
    initial_world
  = (Raised KeyError,
     {| session := Fusion.empty; solved := []; ticks := 1; stdout := [] |})
  /\ projected_second_level_stable_set_problem_sdp (H := Sample.env)
       Degenerate.no_matrix Sample.identity_projector false true initial_world
     = (Raised KeyError,
        {| session := Fusion.empty; solved := []; ticks := 1; stdout := [] |}).
Proof.
  apply (first_matrix_missing (H := Sample.env) Degenerate.no_matrix
           Sample.identity_projector false true [0%nat] eq_refl (lookup_empty _)).
Defined.

(** The unprojected builder on the one-vertex sample, with the sample
    solver. *)
Lemma second_level_outcome_witness :
  exists sol w,
    second_level_stable_set_problem_sdp (H := Sample.env) Sample.one_vertex true
      initial_world
    = (Returned sol, w)
    /\ sol_size_psd_variable sol = 2%nat
    /\ sol_no_linear_variables sol = PyStr "TBC"
    /\ stdout w = ["MOSEK"%string].
Proof.
  rewrite (second_level_outcome (H := Sample.env) Sample.one_vertex true [0%nat] 2
             eq_refl one_vertex_zero_listed one_vertex_conforming ltac:(lia)).
  eexists. eexists. split; [reflexivity |]. split; [reflexivity |]. split; reflexivity.
Defined.

(** The projected builder on the one-vertex sample, with the sample
    solver. *)
Lemma projected_outcome_witness :
  (exists sol w,
     projected_second_level_stable_set_problem_sdp (H := Sample.env) Sample.one_vertex
       Sample.identity_projector false true initial_world
     = (Returned sol, w)
     /\ sol_size_psd_variable sol = 2%nat
     /\ stdout w = [])
  /\ (exists sol w,
        projected_second_level_stable_set_problem_sdp (H := Sample.env) Sample.one_vertex
          Sample.identity_projector true true initial_world
        = (Returned sol, w)
        /\ stdout w = ["MOSEK"%string]).
Proof.
  split.
  - rewrite (projected_outcome (H := Sample.env) Sample.one_vertex
               Sample.identity_projector false true [0%nat] 2
               eq_refl one_vertex_zero_listed
               (identity_conforming _ _ one_vertex_conforming) ltac:(lia)).
    eexists. eexists. split; [reflexivity |]. split; reflexivity.
  - rewrite (projected_outcome (H := Sample.env) Sample.one_vertex
               Sample.identity_projector true true [0%nat] 2
               eq_refl one_vertex_zero_listed
               (identity_conforming _ _ one_vertex_conforming) ltac:(lia)).
    eexists. eexists. split; reflexivity.
Defined.

(** Slack against no slack on the one-vertex sample. *)
Lemma slack_relaxes_witness :
  exists m_plain m_slack,
    solved (projected_second_level_stable_set_problem_sdp (H := Sample.env)
              Sample.one_vertex Sample.identity_projector false false
              initial_world).2 = [m_plain]
    /\ solved (projected_second_level_stable_set_problem_sdp (H := Sample.env)
                 Sample.one_vertex Sample.identity_projector false true
                 initial_world).2 = [m_slack]
    /\ (forall v_plain v_slack,
          optimal_value m_plain v_plain -> optimal_value m_slack v_slack ->
          v_plain <= v_slack).
Proof.
  destruct (slack_relaxes (H := Sample.env) Sample.one_vertex Sample.identity_projector
              false [0%nat] 2 eq_refl one_vertex_zero_listed
              (identity_conforming _ _ one_vertex_conforming))
    as (mp & ms & Hp & Hs & _ & Hopt).
  exists mp, ms. split; [exact Hp |]. split; [exact Hs | exact Hopt].
Defined.

(** Two monomials, two constraints. *)
Lemma one_constraint_per_monomial_witness :
  exists m1 m2,
    solved (second_level_stable_set_problem_sdp (H := Sample.env) Sample.one_vertex false
              initial_world).2 = [m1]
    /\ solved (projected_second_level_stable_set_problem_sdp (H := Sample.env)
                 Sample.one_vertex Sample.identity_projector false true
                 initial_world).2 = [m2]
    /\ length (constraints m1) = 2%nat
    /\ length (constraints m2) = 2%nat.
Proof.
  apply (one_constraint_per_monomial (H := Sample.env) Sample.one_vertex
           Sample.identity_projector false true 1 2 2 [[1%nat]] eq_refl sample_zero_once
           one_vertex_conforming (identity_conforming _ _ one_vertex_conforming)).
Defined.

(** The one-vertex sample with the log handler set. *)
Lemma verbose_sets_log_handler_witness :
  exists m1 q1,
    solved (second_level_stable_set_problem_sdp (H := Sample.env) Sample.one_vertex true
              initial_world).2 = [m1]
    /\ solved (second_level_stable_set_problem_sdp (H := Sample.env) Sample.one_vertex false
                 initial_world).2 = [q1]
    /\ log_handler m1 = true
    /\ constraints m1 = constraints q1.
Proof.
  destruct (verbose_sets_log_handler (H := Sample.env) Sample.one_vertex
              Sample.identity_projector true [0%nat] 2 2
              eq_refl one_vertex_zero_listed one_vertex_conforming
              (identity_conforming _ _ one_vertex_conforming) true)
    as (m1 & m2 & q1 & q2 & H1 & H2 & _ & _ & Hl & _ & _ & _ & Hc & _).
  exists m1, q1. split; [exact H1 |]. split; [exact H2 |]. split; [exact Hl | exact Hc].
Defined.

End SampleOutcomes.
